(** * ra_aid/proc/interactive.py: running a command on a pseudo-terminal

    A shallow embedding of [run_interactive_command] and of the operating
    system calls it makes.  The function is effectful: it allocates a pty,
    spawns a child, loops over keyboard events and descriptor reads, and
    releases the pty in a [finally] block.  The embedding threads a session
    state (the output buffer, the child's [returncode], and the list of the
    calls made so far) through a small state-and-exception monad, and takes
    the answers of the outside world (what each system call returns or
    raises) from a scripted [world]. *)

From Stdlib Require Import ZArith.
From Stdlib.Strings Require Import Byte String.
From stdpp Require Import base gmap strings list.

Local Open Scope Z_scope.
Local Open Scope string_scope.
Local Open Scope list_scope.

(** ** Data *)

(** Python [bytes]. *)
Abbreviation bytes := (list byte).

(** [os.name == 'nt'] selects the emulated pty; everything else is the
    native path. *)
Inductive platform := Unix | Windows.

(** [keyboard.KEY_DOWN] and [keyboard.KEY_UP]. *)
Inductive event_type := KEY_DOWN | KEY_UP.

(** A [keyboard.KeyboardEvent], with the two attributes the loop reads. *)
Record KeyboardEvent := {
  ev_type : event_type;
  ev_name : string
}.

Inductive signal := SIGINT | SIGTERM | SIGKILL.

(** The exceptions that travel through the function.  [FileNotFoundError],
    [PermissionError] and [BrokenPipeError] are subclasses of [OSError];
    [UnicodeDecodeError] and [ValueError] are not. *)
Inductive exn := OSError | UnicodeDecodeError | ValueError.

(** Whom a signal is addressed to: one process, as [os.kill(pid, sig)]
    has it, or every process of a group, as [os.killpg(pgid, sig)]. *)
Inductive kill_target := ToProcess (pid : Z) | ToProcessGroup (pgid : Z).

(** The [stdin]/[stdout]/[stderr] arguments of [subprocess.Popen]. *)
Inductive stream := Fd (fd : Z) | PIPE.

(** The keyword arguments of the two [subprocess.Popen] calls. *)
Record popen_args := {
  p_cmd : list string;
  p_stdin : stream;
  p_stdout : stream;
  p_stderr : stream;
  p_bufsize : Z;
  p_close_fds : bool;
  p_env : gmap string string;
  p_shell : bool;
  p_preexec_setsid : bool        (* preexec_fn=os.setsid *)
}.

(** What [os.read(master_fd, 1024)] gives back. *)
Inductive read_result := ReadOk (chunk : bytes) | ReadOSError.

(** The calls the function makes, in the order it makes them.  A call is
    recorded when it is made, whether it then returns or raises.  The last
    two are not calls of the function itself: they are what
    [proc.send_signal] does, inside [subprocess], to deliver a signal. *)
Inductive call :=
| c_get_terminal_size
| c_openpty
| c_WinPTY (cols rows : Z)
| c_Popen (args : popen_args)
| c_close (fd : Z)                              (* os.close(fd) *)
| c_pty_close                                   (* process_pty.close() *)
| c_poll (res : option Z)                       (* proc.poll() *)
| c_read_event (e : KeyboardEvent)              (* keyboard.read_event() *)
| c_send_signal (sig : signal)                  (* proc.send_signal(sig) *)
| c_write (fd : Z) (data : bytes)               (* os.write(fd, data) *)
| c_read (fd : Z) (n : Z) (res : read_result)   (* os.read(fd, n) *)
| c_print (text : string)
| c_kill (target : kill_target) (sig : signal)  (* os.kill / os.killpg *)
| c_terminate.                                  (* TerminateProcess *)

(** ** The outside world *)

(** One turn of the loop body, as the world answers it: the event that
    [keyboard.read_event()] returns, whether [os.write] succeeds should it
    be called, and what [os.read] returns. *)
Record round := {
  r_event : KeyboardEvent;
  r_write_ok : bool;             (* false: os.write raises OSError *)
  r_read : read_result
}.

(** The answers of the outside world to one call of the function.  The
    child is alive at the polls that open the turns of [rounds], and the
    poll after them reports [exit_status]; a session that leaves the loop
    earlier (interrupt key, failed read, exception) does not consume the
    rest of the script. *)
Record world := {
  os_name : platform;
  terminal_size : option (Z * Z);  (* None: os.get_terminal_size raises *)
  pty_pair : option (Z * Z);     (* controller and follower descriptor;
                                    None: the allocation raises *)
  environ : gmap string string;  (* os.environ *)
  spawn_ok : bool;               (* false: Popen raises (command not found) *)
  os_close_ok : Z -> bool;       (* false: os.close(fd) raises OSError *)
  pty_close_ok : bool;           (* false: process_pty.close() raises *)
  rounds : list round;
  exit_status : Z;
  child_pid : Z;                 (* proc.pid *)
  signal_poll : option Z         (* what the poll that proc.send_signal
                                    makes before signalling finds: None,
                                    the child is alive; Some status, it has
                                    ended with that status *)
}.

(** ** Text *)

(** A Python [str] is held as its UTF-8 text, so [str.encode()] hands out
    the bytes of the string. *)
Definition encode (s : string) : bytes := list_byte_of_string s.

Definition in_range (lo hi : N) (b : byte) : bool :=
  ((lo <=? Byte.to_N b) && (Byte.to_N b <=? hi))%N.

Definition cont (b : byte) : bool := in_range 128 191 b.

(** Well-formed UTF-8, as the strict codec of [bytes.decode()] accepts it:
    no overlong forms, no surrogates, nothing above U+10FFFF. *)
Fixpoint utf8_valid (bs : bytes) : bool :=
  match bs with
  | [] => true
  | b0 :: t0 =>
    if in_range 0 127 b0 then utf8_valid t0
    else if in_range 194 223 b0 then
      match t0 with
      | b1 :: t1 => cont b1 && utf8_valid t1
      | _ => false
      end
    else if in_range 224 239 b0 then
      match t0 with
      | b1 :: b2 :: t2 =>
        (if in_range 224 224 b0 then in_range 160 191 b1
         else if in_range 237 237 b0 then in_range 128 159 b1
         else cont b1)
        && cont b2 && utf8_valid t2
      | _ => false
      end
    else if in_range 240 244 b0 then
      match t0 with
      | b1 :: b2 :: b3 :: t3 =>
        (if in_range 240 240 b0 then in_range 144 191 b1
         else if in_range 244 244 b0 then in_range 128 143 b1
         else cont b1)
        && cont b2 && cont b3 && utf8_valid t3
      | _ => false
      end
    else false
  end.

(** [chunk.decode()]: the text, or [None] where Python raises
    [UnicodeDecodeError]. *)
Definition decode (chunk : bytes) : option string :=
  if utf8_valid chunk then Some (string_of_list_byte chunk) else None.

(** ** The session state and its monad *)

Record state := {
  output : bytes;                (* the local [output] *)
  returncode : option Z;         (* [proc.returncode] *)
  calls : list call              (* calls made so far, oldest first *)
}.

(** How a block of statements ends: it falls through with a value, it hits
    [break], or it raises. *)
Inductive flow (A : Type) :=
| Next (a : A)
| Break
| Raise (e : exn).
Arguments Next {A} a.
Arguments Break {A}.
Arguments Raise {A} e.

Definition M (A : Type) : Type := state -> flow A * state.

Definition ret {A} (a : A) : M A := fun s => (Next a, s).

Definition bind {A B} (c : M A) (k : A -> M B) : M B := fun s =>
  match c s with
  | (Next a, s') => k a s'
  | (Break, s') => (Break, s')
  | (Raise e, s') => (Raise e, s')
  end.

Declare Scope py_scope.
Delimit Scope py_scope with py.
Notation "x <- c ;; k" := (bind c (fun x => k))
  (at level 100, c at next level, right associativity) : py_scope.
Notation "c ;; k" := (bind c (fun _ => k))
  (at level 100, right associativity) : py_scope.
Local Open Scope py_scope.

Definition raise {A} (e : exn) : M A := fun s => (Raise e, s).
Definition break {A} : M A := fun s => (Break, s).
Definition get : M state := fun s => (Next s, s).

(** Record a call. *)
Definition emit (c : call) : M unit := fun s =>
  (Next tt, {| output := output s; returncode := returncode s;
               calls := calls s ++ [c] |}).

(** [output += chunk] *)
Definition append_output (chunk : bytes) : M unit := fun s =>
  (Next tt, {| output := output s ++ chunk; returncode := returncode s;
               calls := calls s |}).

Definition set_returncode (rc : option Z) : M unit := fun s =>
  (Next tt, {| output := output s; returncode := rc; calls := calls s |}).

(** [try: c  except OSError: h] *)
Definition try_except_OSError {A} (c h : M A) : M A := fun s =>
  match c s with
  | (Raise OSError, s') => h s'
  | other => other
  end.

(** [try: c  finally: f].  The [finally] block runs however [c] ended; what
    [c] did stands unless [f] itself raises. *)
Definition try_finally {A} (c : M A) (f : M unit) : M A := fun s =>
  match c s with
  | (r, s') =>
    match f s' with
    | (Next _, s'') => (r, s'')
    | (Break, s'') => (Break, s'')
    | (Raise e, s'') => (Raise e, s'')
    end
  end.

(** A [while] statement absorbs the [break] of its body. *)
Definition end_of_loop (c : M unit) : M unit := fun s =>
  match c s with
  | (Break, s') => (Next tt, s')
  | other => other
  end.

(** ** The calls, as statements *)

Definition set_output (b : bytes) : M unit := fun s =>
  (Next tt, {| output := b; returncode := returncode s; calls := calls s |}).

Definition os_get_terminal_size (w : world) : M (Z * Z) :=
  emit c_get_terminal_size ;;
  match terminal_size w with
  | Some size => ret size
  | None => raise OSError
  end.

Definition os_openpty (w : world) : M (Z * Z) :=
  emit c_openpty ;;
  match pty_pair w with
  | Some fds => ret fds
  | None => raise OSError
  end.

(** [WinPTY(cols, rows)], handing out the object's [fd] and [slave_fd]. *)
Definition WinPTY (w : world) (cols rows : Z) : M (Z * Z) :=
  emit (c_WinPTY cols rows) ;;
  match pty_pair w with
  | Some fds => ret fds
  | None => raise OSError
  end.

(** [subprocess.Popen(...)]: a fresh handle has [returncode] [None]. *)
Definition subprocess_Popen (w : world) (args : popen_args) : M unit :=
  emit (c_Popen args) ;;
  if spawn_ok w then set_returncode None else raise OSError.

Definition os_close (w : world) (fd : Z) : M unit :=
  emit (c_close fd) ;;
  if os_close_ok w fd then ret tt else raise OSError.

Definition process_pty_close (w : world) : M unit :=
  emit c_pty_close ;;
  if pty_close_ok w then ret tt else raise OSError.

(** [proc.poll()]: sets [returncode] once the child has ended, and returns
    it. *)
Definition proc_poll (res : option Z) : M (option Z) :=
  emit (c_poll res) ;;
  match res with
  | Some status => set_returncode (Some status)
  | None => ret tt
  end ;;
  ret res.

Definition keyboard_read_event (r : round) : M KeyboardEvent :=
  emit (c_read_event (r_event r)) ;;
  ret (r_event r).

(** [proc.send_signal(sig)], as [subprocess.Popen] does it.  On POSIX it
    polls first: a child that has ended gets no signal and its status goes
    to [returncode]; a child that is alive gets [os.kill(self.pid, sig)],
    addressed to that one process.  On Windows nothing is done for a child
    known to have ended, [SIGTERM] terminates the process, and any other
    signal but the console events raises [ValueError].  At most one such
    call is made in a session, since the loop is left right after it. *)
Definition proc_send_signal (w : world) (sig : signal) : M unit :=
  emit (c_send_signal sig) ;;
  s <- get ;;
  match returncode s with
  | Some _ => ret tt
  | None =>
    match os_name w with
    | Unix =>
      match signal_poll w with
      | Some status => set_returncode (Some status)
      | None => emit (c_kill (ToProcess (child_pid w)) sig)
      end
    | Windows =>
      match sig with
      | SIGTERM => emit c_terminate
      | _ => raise ValueError
      end
    end
  end.

Definition os_write (r : round) (fd : Z) (data : bytes) : M unit :=
  emit (c_write fd data) ;;
  if r_write_ok r then ret tt else raise OSError.

Definition os_read (r : round) (fd n : Z) : M bytes :=
  emit (c_read fd n (r_read r)) ;;
  match r_read r with
  | ReadOk chunk => ret chunk
  | ReadOSError => raise OSError
  end.

Definition bytes_decode (chunk : bytes) : M string :=
  match decode chunk with
  | Some text => ret text
  | None => raise UnicodeDecodeError
  end.

(** [print(text, end='', flush=True)]: the live display, taken to accept
    what it is given. *)
Definition print (text : string) : M unit := emit (c_print text).

(** ** The program *)

(** Lines 39-40: [env = os.environ.copy(); env['TERM'] = 'xterm']. *)
Definition child_env (environ : gmap string string) : gmap string string :=
  <["TERM" := "xterm"]> environ.

(** Lines 70-86, one turn of the loop. *)
Definition body (w : world) (master_fd : Z) (r : round) : M unit :=
  event <- keyboard_read_event r ;;
  match ev_type event with
  | KEY_DOWN =>
    if (ev_name event =? "ctrl+c")%string then
      proc_send_signal w SIGINT ;;
      break
    else
      os_write r master_fd (encode (ev_name event))
  | KEY_UP => ret tt
  end ;;
  try_except_OSError
    (chunk <- os_read r master_fd 1024 ;;
     match chunk with
     | [] => ret tt
     | _ :: _ =>
       append_output chunk ;;
       text <- bytes_decode chunk ;;
       print text
     end)
    break.

(** Line 69, [while proc.poll() is None]: the child is alive at the poll
    before each scripted round and has ended, with [status], at the poll
    after the last of them. *)
Fixpoint while_poll_is_None (w : world) (master_fd : Z) (rs : list round)
    (status : Z) : M unit :=
  match rs with
  | [] => proc_poll (Some status) ;; ret tt
  | r :: rs' =>
    proc_poll None ;;
    body w master_fd r ;;
    while_poll_is_None w master_fd rs' status
  end.

(** Lines 88-92, the [finally] block. *)
Definition cleanup (w : world) (master_fd : Z) : M unit :=
  match os_name w with
  | Windows => process_pty_close w
  | Unix => if (master_fd >=? 0)%Z then os_close w master_fd else ret tt
  end.

Definition run_interactive_command
    (cmd : list string) (expected_runtime_seconds : Z) (w : world)
  : M (bytes * Z) :=
  size <- os_get_terminal_size w ;;
  let cols := fst size in
  let rows := snd size in
  fds <- match os_name w with
         | Windows => WinPTY w cols rows
         | Unix => os_openpty w
         end ;;
  let master_fd := fst fds in
  let slave_fd := snd fds in
  let env := child_env (environ w) in
  match os_name w with
  | Windows =>
    subprocess_Popen w
      {| p_cmd := cmd; p_stdin := PIPE;
         p_stdout := Fd slave_fd; p_stderr := Fd slave_fd;
         p_bufsize := 0; p_close_fds := true; p_env := env;
         p_shell := true; p_preexec_setsid := false |}
  | Unix =>
    subprocess_Popen w
      {| p_cmd := cmd; p_stdin := Fd slave_fd;
         p_stdout := Fd slave_fd; p_stderr := Fd slave_fd;
         p_bufsize := 0; p_close_fds := true; p_env := env;
         p_shell := false; p_preexec_setsid := true |} ;;
    os_close w slave_fd
  end ;;
  set_output [] ;;
  try_finally
    (end_of_loop
       (while_poll_is_None w master_fd (rounds w) (exit_status w)))
    (cleanup w master_fd) ;;
  s <- get ;;
  ret (output s, match returncode s with Some code => code | None => -1 end).

(** The state in which the function is entered. *)
Definition fresh : state :=
  {| output := []; returncode := None; calls := [] |}.

(** A whole call: how it ends, and the state it leaves. *)
Definition run (cmd : list string) (expected_runtime_seconds : Z) (w : world)
  : flow (bytes * Z) * state :=
  run_interactive_command cmd expected_runtime_seconds w fresh.

(** ** What a turn of the loop does, read off the script *)

(** How a turn ends: it falls through to the next poll, it breaks on the
    interrupt key, or it stops on a failed write, a failed read or a chunk
    that does not decode. *)
Inductive turn_end :=
| T_next | T_interrupt | T_write_error | T_read_error | T_decode_error.

Definition read_end (res : read_result) : turn_end :=
  match res with
  | ReadOSError => T_read_error
  | ReadOk [] => T_next
  | ReadOk (b :: bs) => if utf8_valid (b :: bs) then T_next else T_decode_error
  end.

Definition turn (r : round) : turn_end :=
  match ev_type (r_event r) with
  | KEY_DOWN =>
    if (ev_name (r_event r) =? "ctrl+c")%string then T_interrupt
    else if r_write_ok r then read_end (r_read r) else T_write_error
  | KEY_UP => read_end (r_read r)
  end.

Definition falls_through (r : round) : Prop := turn r = T_next.

Definition flow_of_turn (t : turn_end) : flow unit :=
  match t with
  | T_next => Next tt
  | T_interrupt | T_read_error => Break
  | T_write_error => Raise OSError
  | T_decode_error => Raise UnicodeDecodeError
  end.

(** The calls of the read step (lines 80-86). *)
Definition read_calls (fd : Z) (res : read_result) : list call :=
  c_read fd 1024 res ::
  match res with
  | ReadOk (b :: bs) =>
    match decode (b :: bs) with
    | Some text => [c_print text]
    | None => []
    end
  | _ => []
  end.

(** The calls of a whole turn (lines 71-86). *)
Definition turn_calls (fd : Z) (r : round) : list call :=
  c_read_event (r_event r) ::
  match ev_type (r_event r) with
  | KEY_DOWN =>
    if (ev_name (r_event r) =? "ctrl+c")%string then [c_send_signal SIGINT]
    else
      c_write fd (encode (ev_name (r_event r))) ::
      (if r_write_ok r then read_calls fd (r_read r) else [])
  | KEY_UP => read_calls fd (r_read r)
  end.

(** The bytes a turn appends to [output]. *)
Definition turn_out (r : round) : bytes :=
  match turn r, r_read r with
  | (T_interrupt | T_write_error), _ => []
  | _, ReadOk chunk => chunk
  | _, ReadOSError => []
  end.

(** The ways out of the loop. *)
Inductive route :=
| ChildExited                 (* the poll reported the exit status *)
| Interrupt                   (* break after send_signal *)
| ReadError                   (* break in the except clause *)
| Fault (e : exn).            (* an exception leaves the try block *)

Fixpoint route_of (rs : list round) : route :=
  match rs with
  | [] => ChildExited
  | r :: rs' =>
    match turn r with
    | T_next => route_of rs'
    | T_interrupt => Interrupt
    | T_read_error => ReadError
    | T_write_error => Fault OSError
    | T_decode_error => Fault UnicodeDecodeError
    end
  end.

Fixpoint loop_calls (fd : Z) (rs : list round) (status : Z) : list call :=
  match rs with
  | [] => [c_poll (Some status)]
  | r :: rs' =>
    c_poll None :: turn_calls fd r ++
    match turn r with
    | T_next => loop_calls fd rs' status
    | _ => []
    end
  end.

Fixpoint loop_out (rs : list round) : bytes :=
  match rs with
  | [] => []
  | r :: rs' =>
    turn_out r ++ match turn r with T_next => loop_out rs' | _ => [] end
  end.

(** The calls of turns that all fall through: each opens with the poll
    that found the child alive. *)
Fixpoint turns_calls (fd : Z) (rs : list round) : list call :=
  match rs with
  | [] => []
  | r :: rs' => c_poll None :: turn_calls fd r ++ turns_calls fd rs'
  end.

(** ** What is read off a list of calls *)

(** A call that releases the pty: closing the controller descriptor [m], or
    the emulated pty's close operation. *)
Definition is_release (m : Z) (c : call) : bool :=
  match c with
  | c_close fd => (fd =? m)%Z
  | c_pty_close => true
  | _ => false
  end.

Fixpoint releases (m : Z) (cs : list call) : nat :=
  match cs with
  | [] => 0
  | c :: cs' => ((if is_release m c then 1 else 0) + releases m cs')%nat
  end.

(** The calls of the loop itself: none of them allocates, spawns or
    closes. *)
Definition is_loop_call (c : call) : bool :=
  match c with
  | c_poll _ | c_read_event _ | c_send_signal _
  | c_write _ _ | c_read _ _ _ | c_print _
  | c_kill _ _ | c_terminate => true
  | _ => false
  end.

(** Everything the reads returned, in order. *)
Fixpoint chunks_read (cs : list call) : bytes :=
  match cs with
  | [] => []
  | c_read _ _ (ReadOk chunk) :: cs' => chunk ++ chunks_read cs'
  | _ :: cs' => chunks_read cs'
  end.

(** The exit status the operating system reported to a poll, if any did. *)
Fixpoint reported (cs : list call) : option Z :=
  match cs with
  | [] => None
  | c_poll (Some status) :: _ => Some status
  | _ :: cs' => reported cs'
  end.

(** The calls of the [finally] block. *)
Definition cleanup_calls (w : world) (m : Z) : list call :=
  match os_name w with
  | Windows => [c_pty_close]
  | Unix => if (m >=? 0)%Z then [c_close m] else []
  end.

(** The [finally] block does not raise. *)
Definition cleanup_ok (w : world) (m : Z) : bool :=
  match os_name w with
  | Windows => pty_close_ok w
  | Unix => if (m >=? 0)%Z then os_close_ok w m else true
  end.

(** The session gets as far as the loop: the terminal size is known, the
    pty is allocated with controller [m] and follower [sl], the child is
    spawned, and (native path) the follower descriptor is closed. *)
Definition starts (w : world) (m sl : Z) : Prop :=
  is_Some (terminal_size w) /\ pty_pair w = Some (m, sl) /\
  spawn_ok w = true /\ (os_name w = Unix -> os_close_ok w sl = true).

(** The arguments of the [Popen] call, per platform. *)
Definition spawn_args (cmd : list string) (w : world) (sl : Z) : popen_args :=
  match os_name w with
  | Windows =>
    {| p_cmd := cmd; p_stdin := PIPE;
       p_stdout := Fd sl; p_stderr := Fd sl;
       p_bufsize := 0; p_close_fds := true; p_env := child_env (environ w);
       p_shell := true; p_preexec_setsid := false |}
  | Unix =>
    {| p_cmd := cmd; p_stdin := Fd sl;
       p_stdout := Fd sl; p_stderr := Fd sl;
       p_bufsize := 0; p_close_fds := true; p_env := child_env (environ w);
       p_shell := false; p_preexec_setsid := true |}
  end.

(** The calls made before the loop is entered, in a session that
    [starts]. *)
Definition setup_calls (cmd : list string) (w : world) (sl : Z) : list call :=
  c_get_terminal_size ::
  match os_name w with
  | Windows =>
    match terminal_size w with
    | Some (cols, rows) => [c_WinPTY cols rows; c_Popen (spawn_args cmd w sl)]
    | None => []
    end
  | Unix => [c_openpty; c_Popen (spawn_args cmd w sl); c_close sl]
  end.

(** What [proc.send_signal(SIGINT)] does in a turn of the loop, where
    [returncode] is still [None]: how the call ends, what it leaves in
    [returncode], and the call that delivers the signal. *)
Definition interrupt_raises (w : world) : option exn :=
  match os_name w with
  | Unix => None
  | Windows => Some ValueError
  end.

Definition interrupt_returncode (w : world) : option Z :=
  match os_name w with
  | Unix => signal_poll w
  | Windows => None
  end.

Definition interrupt_delivery (w : world) : list call :=
  match os_name w, signal_poll w with
  | Unix, None => [c_kill (ToProcess (child_pid w)) SIGINT]
  | _, _ => []
  end.

(** The delivery of the signal, at the end of a loop left by the interrupt
    key. *)
Definition delivery (w : world) (rs : list round) : list call :=
  match route_of rs with
  | Interrupt => interrupt_delivery w
  | _ => []
  end.

(** The exception that leaves the loop, if one does: a failed write or an
    undecodable chunk, or the [ValueError] of [send_signal]. *)
Definition loop_raises (w : world) (rs : list round) : option exn :=
  match route_of rs with
  | Fault e => Some e
  | Interrupt => interrupt_raises w
  | _ => None
  end.

(** How the [while] statement's body ends on each route, before [break] is
    absorbed. *)
Definition flow_of_route (w : world) (rs : list round) : flow unit :=
  match loop_raises w rs with
  | Some e => Raise e
  | None =>
    match route_of rs with
    | ChildExited => Next tt
    | _ => Break
    end
  end.

(** [proc.returncode] after the loop: the poll that ends the loop sets it,
    and so does the poll inside [send_signal] when it finds that the child
    has ended. *)
Definition returncode_after (w : world) (rs : list round) (status : Z)
  : option Z :=
  match route_of rs with
  | ChildExited => Some status
  | Interrupt => interrupt_returncode w
  | _ => None
  end.

(** The exit code handed to the caller (line 94). *)
Definition exit_code (rc : option Z) : Z :=
  match rc with Some code => code | None => -1 end.

(** What a started session returns or raises. *)
Definition result_of (w : world) (m : Z) : flow (bytes * Z) :=
  if cleanup_ok w m then
    match loop_raises w (rounds w) with
    | Some e => Raise e
    | None =>
      Next (loop_out (rounds w),
            exit_code (returncode_after w (rounds w) (exit_status w)))
    end
  else Raise OSError.

(** The deliveries of signals, each with its target, in order. *)
Definition kills (cs : list call) : list (kill_target * signal) :=
  flat_map (fun c => match c with
                     | c_kill target sig => [(target, sig)]
                     | _ => []
                     end) cs.

(** A round in which nothing comes out of the child: the turn falls
    through and the read returns no bytes. *)
Definition quiet (r : round) : Prop :=
  falls_through r /\ r_read r = ReadOk [].

(** ** Example sessions *)

Definition key (ty : event_type) (name : string) : KeyboardEvent :=
  {| ev_type := ty; ev_name := name |}.

Definition parent_env : gmap string string :=
  <["TERM" := "dumb"]> (<["HOME" := "/root"]> ∅).

(** A native session on descriptors 3 and 4 in which every system call of
    the set-up and of the clean-up succeeds. *)
Definition native (rs : list round) (status : Z) : world :=
  {| os_name := Unix; terminal_size := Some (80, 24);
     pty_pair := Some (3, 4); environ := parent_env; spawn_ok := true;
     os_close_ok := fun _ => true; pty_close_ok := true;
     rounds := rs; exit_status := status;
     child_pid := 4242; signal_poll := None |}.

(** A native session whose child has ended, with [status], by the time the
    interrupt key is pressed: the poll inside [send_signal] finds it so. *)
Definition native_ended (rs : list round) (status : Z) : world :=
  {| os_name := Unix; terminal_size := Some (80, 24);
     pty_pair := Some (3, 4); environ := parent_env; spawn_ok := true;
     os_close_ok := fun _ => true; pty_close_ok := true;
     rounds := rs; exit_status := status;
     child_pid := 4242; signal_poll := Some status |}.

(** The same on the emulated pty. *)
Definition emulated (rs : list round) (status : Z) : world :=
  {| os_name := Windows; terminal_size := Some (80, 24);
     pty_pair := Some (3, 4); environ := parent_env; spawn_ok := true;
     os_close_ok := fun _ => true; pty_close_ok := true;
     rounds := rs; exit_status := status;
     child_pid := 4242; signal_poll := None |}.

(** The pty is allocated, then [Popen] raises: the command does not
    exist. *)
Definition no_such_command : world :=
  {| os_name := Unix; terminal_size := Some (80, 24);
     pty_pair := Some (3, 4); environ := parent_env; spawn_ok := false;
     os_close_ok := fun _ => true; pty_close_ok := true;
     rounds := []; exit_status := 127;
     child_pid := 4242; signal_poll := None |}.

(** The key "a" goes down and the child answers "hi". *)
Definition typed_a : round :=
  {| r_event := key KEY_DOWN "a"; r_write_ok := true;
     r_read := ReadOk (encode "hi") |}.

(** The key "a" goes up while "ok" is pending on the descriptor. *)
Definition released_a : round :=
  {| r_event := key KEY_UP "a"; r_write_ok := true;
     r_read := ReadOk (encode "ok") |}.

(** The interrupt combination goes down. *)
Definition pressed_ctrl_c : round :=
  {| r_event := key KEY_DOWN "ctrl+c"; r_write_ok := true;
     r_read := ReadOk [] |}.

(** The key "a" goes down and the write to the controller descriptor
    fails. *)
Definition write_fails : round :=
  {| r_event := key KEY_DOWN "a"; r_write_ok := false;
     r_read := ReadOSError |}.

(** A key goes up and the read from the controller descriptor fails. *)
Definition read_fails : round :=
  {| r_event := key KEY_UP "a"; r_write_ok := true; r_read := ReadOSError |}.

(** A key goes down, nothing is pending. *)
Definition silent : round :=
  {| r_event := key KEY_DOWN "a"; r_write_ok := true; r_read := ReadOk [] |}.

(** ** The command-line entry point *)

Definition usage : string := "Usage: interactive.py <command> [args...]".

(** [print(text)] with the default line end. *)
Definition print_line (text : string) : M unit :=
  emit (c_print (text ++ String (Ascii.ascii_of_nat 10) EmptyString)%string).

(** Lines 96-102, the [__main__] block, given [sys.argv].  The value is the
    argument of [sys.exit]; an exception of the run is not caught and leaves
    the program as it is. *)
Definition main (argv : list string) (w : world) : M Z :=
  if (length argv <? 2)%nat then
    print_line usage ;;
    ret 1
  else
    result <- run_interactive_command (List.tl argv) 30 w ;;
    ret (snd result).

(** ** More readings of a list of calls *)

(** The writes, each with its descriptor and its bytes, in order. *)
Definition written (cs : list call) : list (Z * bytes) :=
  flat_map (fun c => match c with
                     | c_write fd data => [(fd, data)]
                     | _ => []
                     end) cs.

(** What the key presses read from the keyboard ask to be sent to the
    descriptor [m]: the name of every key that went down, the interrupt
    combination apart. *)
Definition typed (m : Z) (cs : list call) : list (Z * bytes) :=
  flat_map (fun c => match c with
                     | c_read_event e =>
                       match ev_type e with
                       | KEY_DOWN =>
                         if (ev_name e =? "ctrl+c")%string then []
                         else [(m, encode (ev_name e))]
                       | KEY_UP => []
                       end
                     | _ => []
                     end) cs.

(** The bytes of everything shown on the live display, in order. *)
Definition printed (cs : list call) : bytes :=
  flat_map (fun c => match c with
                     | c_print text => encode text
                     | _ => []
                     end) cs.


(** The children spawned, each by the arguments of its [Popen] call. *)
Definition spawns (cs : list call) : list popen_args :=
  flat_map (fun c => match c with
                     | c_Popen args => [args]
                     | _ => []
                     end) cs.

(** A read or a write is on the controller descriptor [m], and a read asks
    for 1024 bytes. *)
Definition on_controller (m : Z) (c : call) : Prop :=
  match c with
  | c_write fd _ => fd = m
  | c_read fd n _ => fd = m /\ n = 1024
  | _ => True
  end.

(** The read hands out 7-bit bytes only. *)
Definition ascii_only (r : round) : Prop :=
  match r_read r with
  | ReadOk chunk => Forall (fun b => in_range 0 127 b = true) chunk
  | ReadOSError => True
  end.

(** The first byte of a character that takes two, three or four bytes. *)
Definition is_lead (b : byte) : bool := in_range 194 244 b.

(** A round whose read returns a chunk that stops after the first byte of
    a multi-byte character. *)
Definition cut_character : round :=
  {| r_event := key KEY_UP "a"; r_write_ok := true;
     r_read := ReadOk ["h"; "195"]%byte |}.

(** The pty cannot be allocated. *)
Definition no_pty : world :=
  {| os_name := Unix; terminal_size := Some (80, 24);
     pty_pair := None; environ := parent_env; spawn_ok := true;
     os_close_ok := fun _ => true; pty_close_ok := true;
     rounds := [typed_a]; exit_status := 0;
     child_pid := 4242; signal_poll := None |}.

(** A native session in which closing the controller descriptor 3
    fails. *)
Definition close_fails (rs : list round) (status : Z) : world :=
  {| os_name := Unix; terminal_size := Some (80, 24);
     pty_pair := Some (3, 4); environ := parent_env; spawn_ok := true;
     os_close_ok := fun fd => negb (fd =? 3)%Z; pty_close_ok := true;
     rounds := rs; exit_status := status;
     child_pid := 4242; signal_poll := None |}.

(** How many calls of a list satisfy [p]. *)
Fixpoint count_calls (p : call -> bool) (cs : list call) : nat :=
  match cs with
  | [] => 0
  | c :: cs' => ((if p c then 1 else 0) + count_calls p cs')%nat
  end.

(** A poll that found the child alive. *)
Definition is_alive_poll (c : call) : bool :=
  match c with c_poll None => true | _ => false end.

(** A poll that was given the exit status. *)
Definition is_exit_poll (c : call) : bool :=
  match c with c_poll (Some _) => true | _ => false end.

(** A keyboard event was waited for. *)
Definition is_key_event (c : call) : bool :=
  match c with c_read_event _ => true | _ => false end.

(** * Proofs *)

(** ** The run in closed form *)

(** Unfold the statements of the monad and put the appended call lists in
    right-nested form. *)
Ltac step :=
  unfold keyboard_read_event, proc_send_signal, os_write, os_read,
    append_output, bytes_decode, decode, print, proc_poll, set_returncode,
    try_except_OSError, bind, emit, ret, raise, break;
  cbn [r_event r_write_ok r_read ev_type ev_name output returncode calls
       fst snd].

Ltac flat :=
  rewrite ?app_nil_r, <- ?app_assoc; cbn [app]; rewrite <- ?app_assoc;
  try reflexivity.

(** Unfold the set-up of a run that does not reach the loop. *)
Ltac prelude :=
  unfold run, run_interactive_command, os_get_terminal_size, os_openpty,
    WinPTY, subprocess_Popen, os_close, spawn_args.

Lemma turn_interrupt_event r :
  turn r = T_interrupt ->
  ev_type (r_event r) = KEY_DOWN /\
  (ev_name (r_event r) =? "ctrl+c")%string = true.
Proof.
  unfold turn, read_end.
  destruct (ev_type (r_event r));
    [destruct (ev_name (r_event r) =? "ctrl+c")%string; [split; reflexivity|];
     destruct (r_write_ok r) |];
    destruct (r_read r) as [[|b bs]|]; try discriminate;
    destruct (utf8_valid (b :: bs)); discriminate.
Qed.

Lemma key_up_not_interrupt r :
  ev_type (r_event r) = KEY_UP -> turn r <> T_interrupt.
Proof.
  intros H Ht. destruct (turn_interrupt_event r Ht) as [Hty _]. congruence.
Qed.

Lemma other_key_not_interrupt r :
  (ev_name (r_event r) =? "ctrl+c")%string = false -> turn r <> T_interrupt.
Proof.
  intros H Ht. destruct (turn_interrupt_event r Ht) as [_ Hn]. congruence.
Qed.

(** A turn that does not read the interrupt key. *)
Lemma body_eq w fd r s :
  turn r <> T_interrupt ->
  body w fd r s =
  (flow_of_turn (turn r),
   {| output := output s ++ turn_out r; returncode := returncode s;
      calls := calls s ++ turn_calls fd r |}).
Proof.
  destruct r as [[ty name] wok rd].
  unfold body, turn, turn_out, turn, turn_calls, read_end, read_calls, decode.
  step. intros Hne.
  destruct ty; [destruct (name =? "ctrl+c")%string; [congruence|destruct wok] |];
    step; try (cbn [flow_of_turn]; flat; fail);
    destruct rd as [[|b bs]|]; step; try (cbn [flow_of_turn]; flat; fail);
    destruct (utf8_valid (b :: bs)); step; cbn [flow_of_turn]; flat.
Qed.

(** The turn of the interrupt key, in the loop, where [returncode] is
    [None]. *)
Lemma body_interrupt w fd r s :
  turn r = T_interrupt ->
  returncode s = None ->
  body w fd r s =
  (match interrupt_raises w with Some e => Raise e | None => Break end,
   {| output := output s; returncode := interrupt_returncode w;
      calls := calls s ++ turn_calls fd r ++ interrupt_delivery w |}).
Proof.
  intros Ht Hrc. destruct (turn_interrupt_event r Ht) as [Hty Hname].
  unfold body, turn_calls, interrupt_raises, interrupt_returncode,
    interrupt_delivery.
  step. unfold get. rewrite Hty, Hname. step. rewrite Hrc.
  destruct (os_name w); [destruct (signal_poll w)|]; step; flat.
Qed.

Lemma while_eq w fd status rs : forall s,
  returncode s = None ->
  while_poll_is_None w fd rs status s =
  (flow_of_route w rs,
   {| output := output s ++ loop_out rs;
      returncode := returncode_after w rs status;
      calls := calls s ++ loop_calls fd rs status ++ delivery w rs |}).
Proof.
  induction rs as [|r rs IH]; intros s Hrc; cbn [while_poll_is_None].
  - step. cbn. flat.
  - step.
    unfold flow_of_route, loop_raises, returncode_after, delivery in *.
    cbn [route_of loop_out loop_calls].
    destruct (turn r) eqn:Ht.
    + rewrite body_eq by congruence. rewrite Ht. cbn [flow_of_turn].
      rewrite IH by exact Hrc. cbn [output returncode calls]. flat.
    + rewrite body_interrupt by assumption.
      cbn [output returncode calls]. unfold turn_out. rewrite Ht.
      destruct (interrupt_raises w); flat.
    + rewrite body_eq by congruence. rewrite Ht. cbn [flow_of_turn].
      cbn [output returncode calls]. rewrite Hrc. flat.
    + rewrite body_eq by congruence. rewrite Ht. cbn [flow_of_turn].
      cbn [output returncode calls]. rewrite Hrc. flat.
    + rewrite body_eq by congruence. rewrite Ht. cbn [flow_of_turn].
      cbn [output returncode calls]. rewrite Hrc. flat.
Qed.

Lemma loop_eq w fd status rs s :
  returncode s = None ->
  end_of_loop (while_poll_is_None w fd rs status) s =
  (match loop_raises w rs with Some e => Raise e | None => Next tt end,
   {| output := output s ++ loop_out rs;
      returncode := returncode_after w rs status;
      calls := calls s ++ loop_calls fd rs status ++ delivery w rs |}).
Proof.
  intros Hrc. unfold end_of_loop. rewrite while_eq by exact Hrc.
  unfold flow_of_route.
  destruct (loop_raises w rs); [reflexivity|].
  destruct (route_of rs); reflexivity.
Qed.

(** [turn] and [route_of] say how the code itself ends a turn and the
    loop. *)
Lemma body_flow w fd r s :
  turn r <> T_interrupt -> fst (body w fd r s) = flow_of_turn (turn r).
Proof. intros H. rewrite body_eq by exact H. reflexivity. Qed.

Lemma body_interrupt_flow w fd r s :
  turn r = T_interrupt -> fst (body w fd r s) <> Next tt.
Proof.
  intros Ht. destruct (turn_interrupt_event r Ht) as [Hty Hname].
  unfold body. step. unfold get. rewrite Hty, Hname. step.
  destruct (returncode s), (os_name w), (signal_poll w); step; discriminate.
Qed.

Lemma falls_through_body w fd r s :
  falls_through r <-> fst (body w fd r s) = Next tt.
Proof.
  unfold falls_through. destruct (turn r) eqn:Ht.
  2: { split; [discriminate|].
       intros H. destruct (body_interrupt_flow w fd r s Ht H). }
  all: rewrite body_flow by congruence; rewrite Ht; cbn;
    split; congruence.
Qed.

Lemma while_flow w fd status rs s :
  returncode s = None ->
  fst (while_poll_is_None w fd rs status s) = flow_of_route w rs.
Proof. intros H. rewrite while_eq by exact H. reflexivity. Qed.

Lemma cleanup_eq w m s :
  cleanup w m s =
  (if cleanup_ok w m then Next tt else Raise OSError,
   {| output := output s; returncode := returncode s;
      calls := calls s ++ cleanup_calls w m |}).
Proof.
  unfold cleanup, cleanup_ok, cleanup_calls, os_close, process_pty_close.
  destruct (os_name w).
  - destruct (m >=? 0)%Z.
    + step. destruct (os_close_ok w m); reflexivity.
    + step. destruct s; cbn. flat.
  - step. destruct (pty_close_ok w); reflexivity.
Qed.

Lemma run_eq cmd ert w m sl :
  starts w m sl ->
  run cmd ert w =
  (result_of w m,
   {| output := loop_out (rounds w);
      returncode := returncode_after w (rounds w) (exit_status w);
      calls := setup_calls cmd w sl ++
               loop_calls m (rounds w) (exit_status w) ++
               delivery w (rounds w) ++
               cleanup_calls w m |}).
Proof.
  intros ([[cols rows] Hsz] & Hpty & Hsp & Hsl).
  unfold run, run_interactive_command, result_of, setup_calls, spawn_args.
  unfold os_get_terminal_size, os_openpty, WinPTY, subprocess_Popen,
    os_close, set_output, get, try_finally.
  rewrite Hsz, Hpty, Hsp.
  destruct (os_name w) eqn:Hos; step;
    rewrite ?(Hsl eq_refl); rewrite loop_eq by reflexivity;
    rewrite cleanup_eq;
    cbn [output returncode calls fresh app];
    destruct (cleanup_ok w m), (loop_raises w (rounds w));
    cbn [fst snd output returncode calls exit_code];
    rewrite <- ?app_assoc; reflexivity.
Qed.

(** ** The loop after turns that fall through *)

Lemma route_of_app pre rest :
  Forall falls_through pre -> route_of (pre ++ rest) = route_of rest.
Proof.
  induction 1 as [|r pre Hr _ IH]; [reflexivity|].
  cbn [app route_of]. rewrite Hr. exact IH.
Qed.

Lemma loop_calls_app fd status pre rest :
  Forall falls_through pre ->
  loop_calls fd (pre ++ rest) status =
  turns_calls fd pre ++ loop_calls fd rest status.
Proof.
  induction 1 as [|r pre Hr _ IH]; [reflexivity|].
  cbn [app loop_calls turns_calls]. rewrite Hr, IH.
  rewrite <- app_assoc. reflexivity.
Qed.

Lemma loop_calls_all fd status rs :
  Forall falls_through rs ->
  loop_calls fd rs status = turns_calls fd rs ++ [c_poll (Some status)].
Proof.
  intros H. pose proof (loop_calls_app fd status rs [] H) as E.
  rewrite app_nil_r in E. exact E.
Qed.

Lemma route_of_all pre :
  Forall falls_through pre -> route_of pre = ChildExited.
Proof.
  intros H. rewrite <- (app_nil_r pre). rewrite route_of_app by exact H.
  reflexivity.
Qed.

Lemma loop_out_app pre rest :
  Forall falls_through pre ->
  loop_out (pre ++ rest) = loop_out pre ++ loop_out rest.
Proof.
  induction 1 as [|r pre Hr _ IH]; [reflexivity|].
  cbn [app loop_out]. rewrite Hr, IH. apply app_assoc.
Qed.

(** The route taken when the first turn that does not fall through is
    [r]. *)
Lemma route_of_stop pre r post :
  Forall falls_through pre ->
  route_of (pre ++ r :: post) =
  match turn r with
  | T_next => route_of post
  | T_interrupt => Interrupt
  | T_read_error => ReadError
  | T_write_error => Fault OSError
  | T_decode_error => Fault UnicodeDecodeError
  end.
Proof. intros H. rewrite route_of_app by exact H. reflexivity. Qed.

(** ** Facts about the lists of calls *)

Lemma releases_app m cs1 cs2 :
  releases m (cs1 ++ cs2) = (releases m cs1 + releases m cs2)%nat.
Proof.
  induction cs1 as [|c cs1 IH]; [reflexivity|].
  cbn [app releases]. rewrite IH. lia.
Qed.

Lemma releases_loop_call m cs :
  Forall (fun c => is_loop_call c = true) cs -> releases m cs = 0%nat.
Proof.
  induction 1 as [|c cs Hc _ IH]; [reflexivity|].
  cbn [releases]. rewrite IH. destruct c; try discriminate; reflexivity.
Qed.

Lemma read_calls_kind fd res :
  Forall (fun c => is_loop_call c = true) (read_calls fd res).
Proof.
  unfold read_calls. destruct res as [[|b bs]|]; repeat constructor.
  destruct (decode (b :: bs)); repeat constructor.
Qed.

Lemma turn_calls_kind fd r :
  Forall (fun c => is_loop_call c = true) (turn_calls fd r).
Proof.
  unfold turn_calls. constructor; [reflexivity|].
  destruct (ev_type (r_event r)); [|apply read_calls_kind].
  destruct (ev_name (r_event r) =? "ctrl+c")%string; repeat constructor.
  destruct (r_write_ok r); [apply read_calls_kind | constructor].
Qed.

Lemma loop_calls_kind fd status rs :
  Forall (fun c => is_loop_call c = true) (loop_calls fd rs status).
Proof.
  induction rs as [|r rs IH]; cbn [loop_calls];
    (constructor; [reflexivity|]); [constructor|].
  apply Forall_app; split; [apply turn_calls_kind|].
  destruct (turn r); (exact IH || constructor).
Qed.

Lemma releases_cleanup_calls w m :
  (os_name w = Unix -> 0 <= m) -> releases m (cleanup_calls w m) = 1%nat.
Proof.
  intros Hm. unfold cleanup_calls. destruct (os_name w); [|reflexivity].
  specialize (Hm eq_refl).
  destruct (Z.geb_spec m 0) as [_|Hlt]; [|lia].
  cbn. rewrite Z.eqb_refl. reflexivity.
Qed.

Lemma releases_setup_calls cmd w m sl :
  (os_name w = Unix -> m <> sl) -> releases m (setup_calls cmd w sl) = 0%nat.
Proof.
  intros Hne. unfold setup_calls.
  destruct (os_name w); [|destruct (terminal_size w) as [[cols rows]|];
                          reflexivity].
  cbn. destruct (Z.eqb_spec sl m) as [->|_]; [|reflexivity].
  exfalso; apply Hne; reflexivity.
Qed.

Lemma chunks_read_app cs1 cs2 :
  chunks_read (cs1 ++ cs2) = chunks_read cs1 ++ chunks_read cs2.
Proof.
  induction cs1 as [|c cs1 IH]; [reflexivity|].
  cbn [app chunks_read].
  destruct c as [| | | | | | | | | |fd n [chunk|]| | |]; try exact IH.
  rewrite IH, app_assoc. reflexivity.
Qed.

Lemma chunks_read_turn_calls fd r :
  chunks_read (turn_calls fd r) = turn_out r.
Proof.
  destruct r as [[ty name] wok rd]; unfold turn_calls, turn_out, turn.
  cbn [r_event r_write_ok r_read ev_type ev_name].
  destruct ty; [destruct (name =? "ctrl+c")%string; [reflexivity|];
                destruct wok; [|reflexivity] |];
    destruct rd as [[|b bs]|]; try reflexivity;
    unfold read_calls, read_end, decode;
    destruct (utf8_valid (b :: bs)); cbn; rewrite app_nil_r; reflexivity.
Qed.

Lemma chunks_read_loop_calls fd status rs :
  chunks_read (loop_calls fd rs status) = loop_out rs.
Proof.
  induction rs as [|r rs IH]; [reflexivity|].
  cbn [loop_calls loop_out chunks_read].
  rewrite chunks_read_app, chunks_read_turn_calls.
  destruct (turn r); rewrite ?IH; reflexivity.
Qed.

Lemma chunks_read_setup_calls cmd w sl : chunks_read (setup_calls cmd w sl) = [].
Proof.
  unfold setup_calls.
  destruct (os_name w), (terminal_size w) as [[cols rows]|]; reflexivity.
Qed.

Lemma chunks_read_cleanup_calls w m : chunks_read (cleanup_calls w m) = [].
Proof.
  unfold cleanup_calls. destruct (os_name w), (m >=? 0)%Z; reflexivity.
Qed.

Lemma reported_app cs1 cs2 :
  reported (cs1 ++ cs2) =
  match reported cs1 with Some status => Some status | None => reported cs2 end.
Proof.
  induction cs1 as [|c cs1 IH]; [reflexivity|].
  cbn [app reported]. destruct c as [| | | | | |[status|]| | | | | | |]; auto.
Qed.

Lemma reported_no_poll cs :
  Forall (fun c => match c with c_poll _ => False | _ => True end) cs ->
  reported cs = None.
Proof.
  induction 1 as [|c cs Hc _ IH]; [reflexivity|].
  destruct c; try exact IH. destruct Hc.
Qed.

Lemma reported_turn_calls fd r : reported (turn_calls fd r) = None.
Proof.
  apply reported_no_poll. unfold turn_calls, read_calls.
  destruct (ev_type (r_event r)), (ev_name (r_event r) =? "ctrl+c")%string,
    (r_write_ok r), (r_read r) as [[|b bs]|];
    try destruct (decode (b :: bs)); repeat constructor.
Qed.

Lemma reported_loop_calls fd status rs :
  reported (loop_calls fd rs status) =
  match route_of rs with ChildExited => Some status | _ => None end.
Proof.
  induction rs as [|r rs IH]; [reflexivity|].
  cbn [loop_calls route_of reported].
  rewrite reported_app, reported_turn_calls.
  destruct (turn r); rewrite ?IH; reflexivity.
Qed.

Lemma reported_setup_calls cmd w sl : reported (setup_calls cmd w sl) = None.
Proof.
  unfold setup_calls.
  destruct (os_name w), (terminal_size w) as [[cols rows]|]; reflexivity.
Qed.

Lemma reported_cleanup_calls w m : reported (cleanup_calls w m) = None.
Proof.
  unfold cleanup_calls. destruct (os_name w), (m >=? 0)%Z; reflexivity.
Qed.

(** The delivery of the signal is one [os.kill] at most. *)
Lemma delivery_kind w rs :
  Forall (fun c => is_loop_call c = true) (delivery w rs).
Proof.
  unfold delivery, interrupt_delivery.
  destruct (route_of rs), (os_name w), (signal_poll w); repeat constructor.
Qed.

Lemma flat_map_delivery {A} (f : call -> list A) w rs :
  (forall target sig, f (c_kill target sig) = []) ->
  flat_map f (delivery w rs) = [].
Proof.
  intros Hf. unfold delivery, interrupt_delivery.
  destruct (route_of rs), (os_name w), (signal_poll w); try reflexivity.
  cbn [flat_map]. rewrite Hf. reflexivity.
Qed.

Lemma chunks_read_delivery w rs : chunks_read (delivery w rs) = [].
Proof.
  unfold delivery, interrupt_delivery.
  destruct (route_of rs), (os_name w), (signal_poll w); reflexivity.
Qed.

Lemma reported_delivery w rs : reported (delivery w rs) = None.
Proof.
  unfold delivery, interrupt_delivery.
  destruct (route_of rs), (os_name w), (signal_poll w); reflexivity.
Qed.

(** Read off the calls of a whole session that [starts]. *)
Lemma chunks_read_run cmd w m sl :
  chunks_read (setup_calls cmd w sl ++
               loop_calls m (rounds w) (exit_status w) ++
               delivery w (rounds w) ++ cleanup_calls w m) =
  loop_out (rounds w).
Proof.
  rewrite !chunks_read_app, chunks_read_setup_calls, chunks_read_loop_calls,
    chunks_read_delivery, chunks_read_cleanup_calls.
  cbn [app]. apply app_nil_r.
Qed.

(** The polls of the function itself are given a status only when the
    loop ends by the child's exit. *)
Lemma reported_run cmd w m sl :
  reported (setup_calls cmd w sl ++
            loop_calls m (rounds w) (exit_status w) ++
            delivery w (rounds w) ++ cleanup_calls w m) =
  match route_of (rounds w) with
  | ChildExited => Some (exit_status w)
  | _ => None
  end.
Proof.
  rewrite !reported_app, reported_setup_calls, reported_loop_calls,
    reported_delivery, reported_cleanup_calls.
  destruct (route_of (rounds w)); reflexivity.
Qed.

Lemma loop_call_not_popen fd status rs args :
  ~ In (c_Popen args) (loop_calls fd rs status).
Proof.
  intros H. pose proof (loop_calls_kind fd status rs) as K.
  rewrite Forall_forall in K. apply list_elem_of_In, K in H. discriminate.
Qed.

(** The calls of a session that [starts], from the closed form. *)
Lemma calls_of_started cmd ert w m sl :
  starts w m sl ->
  calls (snd (run cmd ert w)) =
  setup_calls cmd w sl ++ loop_calls m (rounds w) (exit_status w) ++
  delivery w (rounds w) ++ cleanup_calls w m.
Proof. intros H. rewrite (run_eq cmd ert w m sl H). reflexivity. Qed.

Lemma delivery_not_popen w rs args : ~ In (c_Popen args) (delivery w rs).
Proof.
  intros H. pose proof (delivery_kind w rs) as K.
  rewrite Forall_forall in K. apply list_elem_of_In, K in H. discriminate.
Qed.

(** A [Popen] call found among the calls of a run is the one of the set-up,
    with the arguments of its platform. *)
Lemma popen_args_of_run cmd ert w args :
  In (c_Popen args) (calls (snd (run cmd ert w))) ->
  exists m sl, pty_pair w = Some (m, sl) /\ args = spawn_args cmd w sl.
Proof.
  destruct (terminal_size w) as [[cols rows]|] eqn:Hsz.
  2: { prelude. rewrite Hsz. step. cbn. intros [H|[]]. discriminate. }
  destruct (pty_pair w) as [[m sl]|] eqn:Hpty.
  2: { prelude. rewrite Hsz, Hpty. destruct (os_name w); step; cbn;
       intros [H|[H|[]]]; discriminate. }
  intros H. exists m, sl. split; [reflexivity|].
  assert (In (c_Popen args) (setup_calls cmd w sl)) as Hin.
  { destruct (spawn_ok w) eqn:Hsp.
    - destruct (os_name w) eqn:Hos.
      + destruct (os_close_ok w sl) eqn:Hsl.
        * rewrite (calls_of_started cmd ert w m sl) in H
            by (repeat split; [eexists; exact Hsz|exact Hpty|exact Hsp
                               |intros _; exact Hsl]).
          rewrite !in_app_iff in H.
          destruct H as [H|[H|[H|H]]]; [exact H| | |].
          -- destruct (loop_call_not_popen _ _ _ _ H).
          -- destruct (delivery_not_popen _ _ _ H).
          -- unfold cleanup_calls in H. rewrite Hos in H.
             destruct (m >=? 0)%Z; cbn in H;
               repeat (destruct H as [H|H]; try discriminate); destruct H.
        * revert H. prelude. unfold setup_calls, spawn_args.
          rewrite Hsz, Hpty, Hsp, Hos. step. rewrite Hsl. cbn. tauto.
      + rewrite (calls_of_started cmd ert w m sl) in H
          by (repeat split; [eexists; exact Hsz|exact Hpty|exact Hsp
                             |intros; congruence]).
        rewrite !in_app_iff in H.
        destruct H as [H|[H|[H|H]]]; [exact H| | |].
        * destruct (loop_call_not_popen _ _ _ _ H).
        * destruct (delivery_not_popen _ _ _ H).
        * unfold cleanup_calls in H. rewrite Hos in H. cbn in H.
          repeat (destruct H as [H|H]; try discriminate); destruct H.
    - revert H. prelude. unfold setup_calls, spawn_args.
      rewrite Hsz, Hpty, Hsp. destruct (os_name w); step; cbn; tauto. }
  unfold setup_calls in Hin. rewrite Hsz in Hin.
  destruct (os_name w); cbn in Hin;
    repeat (destruct Hin as [Hin|Hin]; try discriminate;
            try (inversion Hin; reflexivity)); destruct Hin.
Qed.

Lemma native_starts rs status : starts (native rs status) 3 4.
Proof. repeat split; eauto. Qed.

Lemma emulated_starts rs status : starts (emulated rs status) 3 4.
Proof. repeat split; eauto. Qed.

(** ** Worked sessions *)

Example echo_session :
  fst (run ["echo"; "hello"] 30 (native [typed_a; released_a] 0)) =
  Next (encode "hiok", 0).
Proof. reflexivity. Qed.

Example read_error_session :
  fst (run ["cat"] 30 (native [typed_a; read_fails; typed_a] 0)) =
  Next (encode "hi", -1).
Proof. reflexivity. Qed.

Example emulated_session :
  fst (run ["dir"] 30 (emulated [silent] 0)) = Next ([], 0) /\
  releases 3 (calls (snd (run ["dir"] 30 (emulated [silent] 0)))) = 1%nat /\
  last (calls (snd (run ["dir"] 30 (emulated [silent] 0)))) = Some c_pty_close.
Proof. repeat split. Qed.

(** The interrupt key with the child alive: the signal goes out and
    [returncode] stays [None]. *)
Example interrupt_session :
  run ["sleep"; "5"] 30 (native [pressed_ctrl_c] 0) =
  (Next ([], -1),
   {| output := []; returncode := None;
      calls := setup_calls ["sleep"; "5"] (native [] 0) 4 ++
               [c_poll None; c_read_event (key KEY_DOWN "ctrl+c");
                c_send_signal SIGINT; c_kill (ToProcess 4242) SIGINT;
                c_close 3] |}).
Proof. reflexivity. Qed.

(** The interrupt key after the child has ended with status 3: the poll
    inside [proc.send_signal] stores the status and no signal goes out. *)
Example late_interrupt_session :
  run ["true"] 30 (native_ended [pressed_ctrl_c] 3) =
  (Next ([], 3),
   {| output := []; returncode := Some 3;
      calls := setup_calls ["true"] (native [] 0) 4 ++
               [c_poll None; c_read_event (key KEY_DOWN "ctrl+c");
                c_send_signal SIGINT; c_close 3] |}).
Proof. reflexivity. Qed.

(** The interrupt key on the emulated path: [ValueError], after the
    clean-up. *)
Example emulated_interrupt_session :
  fst (run ["dir"] 30 (emulated [pressed_ctrl_c] 0)) = Raise ValueError /\
  last (calls (snd (run ["dir"] 30 (emulated [pressed_ctrl_c] 0)))) =
  Some c_pty_close.
Proof. split; reflexivity. Qed.

(** A chunk that is not UTF-8 is appended to [output], and then
    [UnicodeDecodeError] leaves the function. *)
Example undecodable_chunk :
  run ["cat"] 30
    (native [{| r_event := key KEY_UP "a"; r_write_ok := true;
                r_read := ReadOk ["255"%byte] |}] 0) =
  (Raise UnicodeDecodeError,
   {| output := ["255"%byte]; returncode := None;
      calls := setup_calls ["cat"] (native [] 0) 4 ++
               [c_poll None; c_read_event (key KEY_UP "a");
                c_read 3 1024 (ReadOk ["255"%byte]); c_close 3] |}).
Proof. reflexivity. Qed.

Example utf8_accepts_two_byte_form : utf8_valid ["195"; "169"]%byte = true.
Proof. reflexivity. Qed.

Example utf8_rejects_overlong_form : utf8_valid ["192"; "128"]%byte = false.
Proof. reflexivity. Qed.

Example utf8_rejects_surrogate :
  utf8_valid ["237"; "160"; "128"]%byte = false.
Proof. reflexivity. Qed.

Example utf8_rejects_cut_sequence : utf8_valid ["226"; "130"]%byte = false.
Proof. reflexivity. Qed.

Example enter_is_spelled_out :
  encode "enter" = ["e"; "n"; "t"; "e"; "r"]%byte.
Proof. reflexivity. Qed.

(** ** Cleanup *)

(** Once the child is spawned, the pty is released exactly once, whichever
    way the loop is left (child exit, read error, interrupt, or an exception
    such as a failed write).  On the native path the controller descriptor
    is the non-negative one [os.openpty()] returned, distinct from the
    follower. *)
Lemma cleanup_once_after_spawn cmd ert w m sl :
  starts w m sl ->
  (os_name w = Unix -> 0 <= m /\ m <> sl) ->
  releases m (calls (snd (run cmd ert w))) = 1%nat.
Proof.
  intros Hst Hm. rewrite (calls_of_started cmd ert w m sl Hst).
  rewrite !releases_app.
  rewrite releases_setup_calls by (intros H; apply Hm, H).
  rewrite (releases_loop_call m _ (loop_calls_kind _ _ _)).
  rewrite (releases_loop_call m _ (delivery_kind _ _)).
  rewrite releases_cleanup_calls by (intros H; apply Hm, H).
  reflexivity.
Qed.

(** When [Popen] raises, the exception leaves the function before the
    [try] statement is entered: no descriptor is closed. *)
Lemma spawn_failure_skips_cleanup cmd ert w m sl :
  terminal_size w <> None -> pty_pair w = Some (m, sl) ->
  spawn_ok w = false ->
  fst (run cmd ert w) = Raise OSError /\
  forall fd, releases fd (calls (snd (run cmd ert w))) = 0%nat.
Proof.
  intros Hsz Hpty Hsp. prelude.
  destruct (terminal_size w) as [[cols rows]|]; [|congruence].
  rewrite Hpty, Hsp. destruct (os_name w); step; split; reflexivity.
Qed.

(** C1 (fails on the code).  The command does not exist: [os.openpty()] has
    handed out descriptors 3 and 4, [Popen] raises, and the function is left
    with [OSError] without either descriptor being closed.  The [try ...
    finally] that releases the pty on every other route starts only after
    the spawn. *)
Theorem spawn_failure_leaks_pty :
  fst (run ["not-a-real-command-xyz"] 30 no_such_command) = Raise OSError /\
  releases 3
    (calls (snd (run ["not-a-real-command-xyz"] 30 no_such_command))) = 0%nat /\
  releases 4
    (calls (snd (run ["not-a-real-command-xyz"] 30 no_such_command))) = 0%nat.
Proof.
  destruct (spawn_failure_skips_cleanup
              ["not-a-real-command-xyz"] 30 no_such_command 3 4)
    as [Hr Hc]; [discriminate|reflexivity|reflexivity|].
  split; [exact Hr|]. split; apply Hc.
Qed.

(** ** Descriptor errors *)

(** A failed read ends the session quietly: the function returns what was
    captured, with the sentinel exit code. *)
Lemma read_error_returns cmd ert w m sl :
  starts w m sl -> cleanup_ok w m = true ->
  route_of (rounds w) = ReadError ->
  fst (run cmd ert w) = Next (loop_out (rounds w), -1).
Proof.
  intros Hst Hc Hr. rewrite (run_eq cmd ert w m sl Hst).
  unfold result_of, loop_raises, returncode_after. rewrite Hc, Hr. reflexivity.
Qed.

(** A failed write is not caught: [OSError] reaches the caller. *)
Lemma write_error_raises cmd ert w m sl :
  starts w m sl -> route_of (rounds w) = Fault OSError ->
  fst (run cmd ert w) = Raise OSError.
Proof.
  intros Hst Hr. rewrite (run_eq cmd ert w m sl Hst).
  unfold result_of, loop_raises, returncode_after. rewrite Hr. destruct (cleanup_ok w m); reflexivity.
Qed.

(** C3 (fails on the code).  A key goes down and [os.write] on the
    controller descriptor raises [OSError]: the write stands outside the
    [try ... except OSError] that guards the read, so after the clean-up the
    exception reaches the caller and no result is returned. *)
Theorem write_failure_surfaces :
  fst (run ["cat"] 30 (native [typed_a; write_fails] 0)) = Raise OSError /\
  releases 3 (calls (snd (run ["cat"] 30 (native [typed_a; write_fails] 0))))
  = 1%nat.
Proof.
  split.
  - apply (write_error_raises _ _ _ 3 4); [apply native_starts|reflexivity].
  - apply (cleanup_once_after_spawn _ _ _ 3 4); [apply native_starts|].
    intros _; split; [lia|discriminate].
Qed.

(** ** The interrupt key *)

Lemma kills_app cs1 cs2 : kills (cs1 ++ cs2) = kills cs1 ++ kills cs2.
Proof. apply flat_map_app. Qed.

Lemma kills_turn_calls fd r : kills (turn_calls fd r) = [].
Proof.
  unfold turn_calls, read_calls.
  destruct (ev_type (r_event r)), (ev_name (r_event r) =? "ctrl+c")%string,
    (r_write_ok r), (r_read r) as [[|b bs]|];
    try destruct (decode (b :: bs)); reflexivity.
Qed.

Lemma kills_turns_calls fd rs : kills (turns_calls fd rs) = [].
Proof.
  induction rs as [|r rs IH]; [reflexivity|].
  cbn [turns_calls]. change (c_poll None :: ?l) with ([c_poll None] ++ l).
  rewrite !kills_app, kills_turn_calls, IH. reflexivity.
Qed.

Lemma kills_setup_calls cmd w sl : kills (setup_calls cmd w sl) = [].
Proof.
  unfold setup_calls.
  destruct (os_name w), (terminal_size w) as [[cols rows]|]; reflexivity.
Qed.

Lemma kills_cleanup_calls w m : kills (cleanup_calls w m) = [].
Proof.
  unfold cleanup_calls. destruct (os_name w), (m >=? 0)%Z; reflexivity.
Qed.

(** The calls of a session that reads the interrupt key after the turns of
    [pre]. *)
Lemma calls_of_interrupted cmd ert w m sl pre r post :
  starts w m sl ->
  rounds w = pre ++ r :: post ->
  Forall falls_through pre ->
  turn r = T_interrupt ->
  calls (snd (run cmd ert w)) =
    setup_calls cmd w sl ++ turns_calls m pre ++
    [c_poll None; c_read_event (r_event r); c_send_signal SIGINT] ++
    interrupt_delivery w ++ cleanup_calls w m.
Proof.
  intros Hst Hrs Hpre Ht.
  destruct (turn_interrupt_event r Ht) as [Hty Hname].
  rewrite (calls_of_started cmd ert w m sl Hst), Hrs.
  rewrite loop_calls_app by exact Hpre.
  unfold delivery. rewrite route_of_app by exact Hpre.
  cbn [loop_calls route_of]. rewrite Ht.
  unfold turn_calls. rewrite Hty, Hname.
  rewrite <- !app_assoc. reflexivity.
Qed.

Lemma interrupt_turn r :
  r_event r = {| ev_type := KEY_DOWN; ev_name := "ctrl+c" |} ->
  turn r = T_interrupt.
Proof. intros Hev. unfold turn. rewrite Hev. reflexivity. Qed.

(** C2, as it stands, fails.  The interrupt key goes down while the child
    is alive: the one delivery of the session is [os.kill] on the pid of
    the child (4242), made by [proc.send_signal]; no signal is addressed
    to a process group. *)
Lemma interrupt_signal_goes_to_the_process :
  kills (calls (snd (run ["sleep"; "5"] 30
                       (native [typed_a; pressed_ctrl_c] 0)))) =
  [(ToProcess 4242, SIGINT)] /\
  ~ (exists pgid sig,
       In (c_kill (ToProcessGroup pgid) sig)
          (calls (snd (run ["sleep"; "5"] 30
                         (native [typed_a; pressed_ctrl_c] 0))))).
Proof.
  split; [reflexivity|].
  intros (pgid & sig & Hin). vm_compute in Hin.
  repeat (destruct Hin as [Hin|Hin]; [discriminate Hin|]). exact Hin.
Qed.

(** C2, amended.  Whenever the loop reads a key-press event named "ctrl+c",
    it calls [proc.send_signal(SIGINT)] and is left in that same turn
    without a write to the controller descriptor: after the poll, the event
    and the call, only the delivery of the signal and the clean-up follow.
    On the native path the signal is addressed to the child process alone
    ([os.kill] on its pid, not its process group), and only if the child
    has not already ended; elsewhere nothing is delivered. *)
Theorem interrupt_key_signals_and_leaves cmd ert w m sl pre r post :
  starts w m sl ->
  rounds w = pre ++ r :: post ->
  Forall falls_through pre ->
  r_event r = {| ev_type := KEY_DOWN; ev_name := "ctrl+c" |} ->
  calls (snd (run cmd ert w)) =
    setup_calls cmd w sl ++ turns_calls m pre ++
    [c_poll None; c_read_event (r_event r); c_send_signal SIGINT] ++
    match os_name w, signal_poll w with
    | Unix, None => [c_kill (ToProcess (child_pid w)) SIGINT]
    | _, _ => []
    end ++
    cleanup_calls w m /\
  kills (calls (snd (run cmd ert w))) =
    match os_name w, signal_poll w with
    | Unix, None => [(ToProcess (child_pid w), SIGINT)]
    | _, _ => []
    end.
Proof.
  intros Hst Hrs Hpre Hev.
  rewrite (calls_of_interrupted cmd ert w m sl pre r post Hst Hrs Hpre
             (interrupt_turn r Hev)).
  split; [reflexivity|].
  rewrite !kills_app, kills_setup_calls, kills_turns_calls,
    kills_cleanup_calls.
  unfold interrupt_delivery.
  destruct (os_name w), (signal_poll w); reflexivity.
Qed.

Lemma interrupt_key_signals_and_leaves_witness :
  calls (snd (run ["sleep"; "5"] 30 (native [typed_a; pressed_ctrl_c] 0))) =
    setup_calls ["sleep"; "5"] (native [typed_a; pressed_ctrl_c] 0) 4 ++
    turns_calls 3 [typed_a] ++
    [c_poll None; c_read_event (key KEY_DOWN "ctrl+c");
     c_send_signal SIGINT] ++
    [c_kill (ToProcess 4242) SIGINT] ++ [c_close 3] /\
  kills (calls (snd (run ["sleep"; "5"] 30
                       (native [typed_a; pressed_ctrl_c] 0)))) =
    [(ToProcess 4242, SIGINT)].
Proof.
  apply (interrupt_key_signals_and_leaves
           ["sleep"; "5"] 30 (native [typed_a; pressed_ctrl_c] 0) 3 4
           [typed_a] pressed_ctrl_c []).
  - apply native_starts.
  - reflexivity.
  - repeat constructor.
  - reflexivity.
Defined.

(** C9, as it stands, fails.  The child ends with status 0 while the loop
    waits for a key; the interrupt key then goes down.  The poll that
    [proc.send_signal] makes before signalling stores the status in
    [proc.returncode], and the function returns 0, not -1. *)
Lemma interrupt_after_exit_returns_status :
  fst (run ["true"] 30 (native_ended [pressed_ctrl_c] 0)) = Next ([], 0).
Proof. reflexivity. Qed.

(** C9, amended.  When the loop is left by the interrupt key, the function
    itself polls no more: no poll of the loop is given a status.  On the
    native path it returns the sentinel -1 when the child is still alive at
    the signal ([proc.returncode] is still [None]), and the child's exit
    status when the poll inside [proc.send_signal] finds that it has
    already ended.  On the emulated path [proc.send_signal(SIGINT)] raises
    [ValueError] and nothing is returned. *)
Theorem interrupt_exit_code cmd ert w m sl pre r post :
  starts w m sl ->
  cleanup_ok w m = true ->
  rounds w = pre ++ r :: post ->
  Forall falls_through pre ->
  r_event r = {| ev_type := KEY_DOWN; ev_name := "ctrl+c" |} ->
  fst (run cmd ert w) =
    match os_name w with
    | Unix =>
      Next (loop_out pre,
            match signal_poll w with Some status => status | None => -1 end)
    | Windows => Raise ValueError
    end /\
  (os_name w = Unix -> returncode (snd (run cmd ert w)) = signal_poll w) /\
  reported (calls (snd (run cmd ert w))) = None.
Proof.
  intros Hst Hc Hrs Hpre Hev. pose proof (interrupt_turn r Hev) as Ht.
  assert (route_of (rounds w) = Interrupt) as Hr.
  { rewrite Hrs, route_of_app by exact Hpre.
    cbn [route_of]. rewrite Ht. reflexivity. }
  assert (loop_out (rounds w) = loop_out pre) as Hout.
  { rewrite Hrs, loop_out_app by exact Hpre. cbn [loop_out].
    unfold turn_out. rewrite Ht, !app_nil_r. reflexivity. }
  rewrite (run_eq cmd ert w m sl Hst). cbn [fst snd returncode calls].
  unfold result_of, loop_raises, returncode_after, interrupt_raises,
    interrupt_returncode.
  rewrite Hc, Hr, Hout, reported_run, Hr.
  destruct (os_name w); [|repeat split; discriminate].
  destruct (signal_poll w); repeat split.
Qed.

Lemma interrupt_exit_code_witness :
  fst (run ["sleep"; "5"] 30 (native [typed_a; pressed_ctrl_c] 0)) =
    Next (loop_out [typed_a], -1) /\
  (Unix = Unix ->
   returncode (snd (run ["sleep"; "5"] 30 (native [typed_a; pressed_ctrl_c] 0)))
   = None) /\
  reported
    (calls (snd (run ["sleep"; "5"] 30 (native [typed_a; pressed_ctrl_c] 0))))
  = None.
Proof.
  apply (interrupt_exit_code
           ["sleep"; "5"] 30 (native [typed_a; pressed_ctrl_c] 0) 3 4
           [typed_a] pressed_ctrl_c []).
  - apply native_starts.
  - reflexivity.
  - reflexivity.
  - repeat constructor.
  - reflexivity.
Defined.

(** ** Forwarding keys *)

(** C5.  Whenever the loop reads a key-press event of a key other than
    "ctrl+c", the next call is [os.write] on the controller descriptor with
    the bytes of the key's name: decoded again they spell the name itself
    (the word "enter", not a carriage return). *)
Theorem key_name_is_written cmd ert w m sl pre r post name :
  starts w m sl ->
  rounds w = pre ++ r :: post ->
  Forall falls_through pre ->
  r_event r = {| ev_type := KEY_DOWN; ev_name := name |} ->
  name <> "ctrl+c" ->
  (exists rest,
     calls (snd (run cmd ert w)) =
       setup_calls cmd w sl ++ turns_calls m pre ++
       [c_poll None; c_read_event (r_event r); c_write m (encode name)] ++
       rest) /\
  string_of_list_byte (encode name) = name.
Proof.
  intros Hst Hrs Hpre Hev Hname. split.
  - rewrite (calls_of_started cmd ert w m sl Hst), Hrs.
    rewrite loop_calls_app by exact Hpre.
    cbn [loop_calls]. unfold turn_calls. rewrite Hev. cbn [ev_type ev_name].
    apply String.eqb_neq in Hname. rewrite Hname.
    eexists. cbn [app]. rewrite <- !app_assoc. cbn [app]. reflexivity.
  - apply string_of_list_byte_of_string.
Qed.

Lemma key_name_is_written_witness :
  (exists rest,
     calls (snd (run ["cat"] 30
                   (native [released_a;
                            {| r_event := key KEY_DOWN "enter";
                               r_write_ok := true; r_read := ReadOk [] |}]
                           0))) =
       setup_calls ["cat"] (native [] 0) 4 ++ turns_calls 3 [released_a] ++
       [c_poll None; c_read_event (key KEY_DOWN "enter");
        c_write 3 ["e"; "n"; "t"; "e"; "r"]%byte] ++ rest) /\
  string_of_list_byte (encode "enter") = "enter".
Proof.
  apply (key_name_is_written
           ["cat"] 30
           (native [released_a;
                    {| r_event := key KEY_DOWN "enter";
                       r_write_ok := true; r_read := ReadOk [] |}] 0)
           3 4 [released_a]
           {| r_event := key KEY_DOWN "enter";
              r_write_ok := true; r_read := ReadOk [] |} [] "enter").
  - apply native_starts.
  - reflexivity.
  - repeat constructor.
  - reflexivity.
  - discriminate.
Defined.

(** C10.  In a turn whose event is a key release, the loop calls neither
    [os.write] nor [proc.send_signal]: after the event it goes straight to
    [os.read] on the controller descriptor, and the chunk that read returns
    is appended to the output buffer in that same turn (followed, at most,
    by printing it). *)
Theorem key_release_only_reads w fd r s name :
  r_event r = {| ev_type := KEY_UP; ev_name := name |} ->
  (exists shown,
     calls (snd (body w fd r s)) =
       calls s ++ [c_read_event (r_event r); c_read fd 1024 (r_read r)] ++
       shown /\
     forall c, In c shown -> exists text, c = c_print text) /\
  (forall chunk, r_read r = ReadOk chunk ->
                 output (snd (body w fd r s)) = output s ++ chunk).
Proof.
  intros Hev.
  rewrite body_eq by (apply key_up_not_interrupt; rewrite Hev; reflexivity).
  cbn [snd calls output].
  unfold turn_calls, turn_out, turn. rewrite Hev. cbn [ev_type ev_name].
  split.
  - unfold read_calls. eexists. split; [reflexivity|].
    intros c Hin. destruct (r_read r) as [[|b bs]|]; [destruct Hin| |destruct Hin].
    destruct (decode (b :: bs)) as [text|]; [|destruct Hin].
    destruct Hin as [<-|[]]. exists text. reflexivity.
  - intros chunk ->. destruct chunk as [|b bs]; cbn [read_end]; [reflexivity|].
    destruct (utf8_valid (b :: bs)); reflexivity.
Qed.

Lemma key_release_only_reads_witness :
  (exists shown,
     calls (snd (body (native [] 0) 3 released_a fresh)) =
       [] ++ [c_read_event (key KEY_UP "a");
              c_read 3 1024 (ReadOk ["o"; "k"]%byte)] ++ shown /\
     forall c, In c shown -> exists text, c = c_print text) /\
  (forall chunk, ReadOk (encode "ok") = ReadOk chunk ->
                 output (snd (body (native [] 0) 3 released_a fresh)) =
                 [] ++ chunk).
Proof.
  apply (key_release_only_reads (native [] 0) 3 released_a fresh "a").
  reflexivity.
Defined.

(** ** The result *)

(** C4.  When the loop has ended without an exception (by the child's
    exit, the interrupt key or a failed read) and the clean-up has
    completed, the function returns.  The output is everything the child
    produced in the turns played, which is everything the reads returned,
    in order.  The exit code is the child's exit status when the operating
    system has reported it, to the poll that ended the loop or to the poll
    inside [proc.send_signal]; it is -1 exactly when [proc.returncode] is
    still [None], no status having been reported. *)
Theorem returns_output_and_exit_code cmd ert w m sl :
  starts w m sl ->
  loop_raises w (rounds w) = None ->
  cleanup_ok w m = true ->
  fst (run cmd ert w) =
    Next (loop_out (rounds w),
          match route_of (rounds w) with
          | ChildExited => exit_status w
          | Interrupt =>
            match signal_poll w with Some status => status | None => -1 end
          | _ => -1
          end) /\
  chunks_read (calls (snd (run cmd ert w))) = loop_out (rounds w) /\
  returncode (snd (run cmd ert w)) =
    match route_of (rounds w) with
    | ChildExited => Some (exit_status w)
    | Interrupt => signal_poll w
    | _ => None
    end.
Proof.
  intros Hst Hr Hc. rewrite (run_eq cmd ert w m sl Hst).
  cbn [fst snd returncode calls]. rewrite chunks_read_run.
  unfold result_of. rewrite Hc, Hr.
  unfold loop_raises, interrupt_raises in Hr.
  unfold returncode_after, interrupt_returncode.
  destruct (route_of (rounds w)) as [| | |e]; try discriminate;
    try (repeat split; fail).
  destruct (os_name w); [|discriminate].
  destruct (signal_poll w); repeat split.
Qed.

Lemma returns_output_and_exit_code_witness :
  fst (run ["echo"; "hello"] 30 (native [typed_a; released_a] 7)) =
    Next (encode "hiok", 7) /\
  chunks_read
    (calls (snd (run ["echo"; "hello"] 30 (native [typed_a; released_a] 7)))) =
    encode "hiok" /\
  returncode (snd (run ["echo"; "hello"] 30 (native [typed_a; released_a] 7))) =
    Some 7.
Proof.
  apply (returns_output_and_exit_code
           ["echo"; "hello"] 30 (native [typed_a; released_a] 7) 3 4).
  - apply native_starts.
  - reflexivity.
  - reflexivity.
Defined.

Lemma loop_out_quiet rs : Forall quiet rs -> loop_out rs = [].
Proof.
  induction 1 as [|r rs [Hf Hrd] _ IH]; [reflexivity|].
  cbn [loop_out]. unfold turn_out. rewrite Hf, Hrd, IH. reflexivity.
Qed.

(** C6.  A child that produces no output and whose exit a poll of the loop
    observes (the first poll, when [rounds w] is empty) makes the function
    return the empty byte sequence and the child's exit status. *)
Theorem silent_exit_returns_status cmd ert w m sl :
  starts w m sl ->
  cleanup_ok w m = true ->
  Forall quiet (rounds w) ->
  fst (run cmd ert w) = Next ([], exit_status w).
Proof.
  intros Hst Hc Hq. rewrite (run_eq cmd ert w m sl Hst). cbn [fst].
  unfold result_of, loop_raises, returncode_after. rewrite Hc, (loop_out_quiet _ Hq).
  rewrite route_of_all; [reflexivity|].
  eapply Forall_impl; [exact Hq|]. intros r [H _]. exact H.
Qed.

Lemma silent_exit_returns_status_witness :
  fst (run ["false"] 30 (native [] 1)) = Next ([], 1).
Proof.
  apply (silent_exit_returns_status ["false"] 30 (native [] 1) 3 4).
  - apply native_starts.
  - reflexivity.
  - constructor.
Defined.

(** ** The child's environment *)

(** C7.  The environment given to [Popen], on either platform, is the
    parent's environment with TERM set to "xterm": it maps TERM to "xterm"
    and agrees with the parent's environment on every other variable. *)
Theorem child_environment cmd ert w args :
  In (c_Popen args) (calls (snd (run cmd ert w))) ->
  p_env args = <["TERM" := "xterm"]> (environ w) /\
  p_env args !! "TERM" = Some "xterm" /\
  forall name, name <> "TERM" -> p_env args !! name = environ w !! name.
Proof.
  intros Hin. destruct (popen_args_of_run _ _ _ _ Hin) as (m & sl & _ & ->).
  assert (p_env (spawn_args cmd w sl) = child_env (environ w)) as ->
    by (unfold spawn_args; destruct (os_name w); reflexivity).
  unfold child_env. split; [reflexivity|]. split.
  - apply lookup_insert_eq.
  - intros name Hne. apply lookup_insert_ne. congruence.
Qed.

Lemma child_environment_witness :
  p_env (spawn_args ["ls"] (native [] 0) 4) = <["TERM" := "xterm"]> parent_env /\
  p_env (spawn_args ["ls"] (native [] 0) 4) !! "TERM" = Some "xterm" /\
  forall name, name <> "TERM" ->
    p_env (spawn_args ["ls"] (native [] 0) 4) !! name = parent_env !! name.
Proof.
  apply (child_environment ["ls"] 30 (native [] 0)
           (spawn_args ["ls"] (native [] 0) 4)).
  rewrite (calls_of_started _ _ _ 3 4 (native_starts [] 0)).
  cbn. right. right. left. reflexivity.
Defined.

(** ** The runtime estimate *)

(** X16.  The loop goes on for as long as the child is alive and the turns
    fall through: every scripted round is played, however many there are,
    and it is the poll reporting the exit status that ends the loop, with
    only the clean-up after it. *)
Lemma loop_runs_until_exit cmd ert w m sl :
  starts w m sl ->
  Forall falls_through (rounds w) ->
  calls (snd (run cmd ert w)) =
    setup_calls cmd w sl ++ turns_calls m (rounds w) ++
    [c_poll (Some (exit_status w))] ++ cleanup_calls w m.
Proof.
  intros Hst Hall. rewrite (calls_of_started cmd ert w m sl Hst).
  rewrite loop_calls_all by exact Hall.
  unfold delivery. rewrite route_of_all by exact Hall.
  rewrite <- !app_assoc. reflexivity.
Qed.

(** C8.  [expected_runtime_seconds] is never read: two calls that differ
    only in it, in the same world, end the same way, return the same output
    and exit code, and make the same calls in the same order.  Nothing in
    the function counts time. *)
Theorem expected_runtime_is_unused cmd seconds1 seconds2 w :
  run cmd seconds1 w = run cmd seconds2 w.
Proof. reflexivity. Qed.

(** * Further properties of the session *)

(** ** Sessions that do not start *)

(** A session either gets as far as the loop, or ends with [OSError]
    having captured nothing and made none of the loop's calls. *)
Lemma run_unstarted cmd ert w :
  (forall m sl, ~ starts w m sl) ->
  fst (run cmd ert w) = Raise OSError /\
  output (snd (run cmd ert w)) = [] /\
  Forall (fun c => is_loop_call c = false) (calls (snd (run cmd ert w))).
Proof.
  intros Hno.
  destruct (terminal_size w) as [[cols rows]|] eqn:Hsz.
  2: { prelude. rewrite Hsz. step. repeat split. repeat constructor. }
  destruct (pty_pair w) as [[m sl]|] eqn:Hpty.
  2: { prelude. rewrite Hsz, Hpty.
       destruct (os_name w); step; repeat split; repeat constructor. }
  destruct (spawn_ok w) eqn:Hsp.
  2: { prelude. rewrite Hsz, Hpty, Hsp.
       destruct (os_name w); step; repeat split; repeat constructor. }
  destruct (os_name w) eqn:Hos.
  - destruct (os_close_ok w sl) eqn:Hsl.
    + destruct (Hno m sl).
      repeat split; [eexists; exact Hsz|exact Hpty|exact Hsp|intros _; exact Hsl].
    + prelude. rewrite Hsz, Hpty, Hsp, Hos. step. rewrite Hsl. step.
      repeat split; repeat constructor.
  - destruct (Hno m sl).
    repeat split; [eexists; exact Hsz|exact Hpty|exact Hsp|intros; congruence].
Qed.

Lemma turn_read_error r : turn r = T_read_error -> r_read r = ReadOSError.
Proof.
  unfold turn, read_end.
  destruct (r_read r) as [[|b bs]|]; [| |reflexivity];
    destruct (ev_type (r_event r));
    try destruct (ev_name (r_event r) =? "ctrl+c")%string;
    try destruct (r_write_ok r);
    try destruct (utf8_valid (b :: bs)); discriminate.
Qed.

Lemma turn_decode_error r chunk :
  turn r = T_decode_error -> r_read r = ReadOk chunk ->
  utf8_valid chunk = false.
Proof.
  unfold turn, read_end. intros H E. rewrite E in H.
  destruct chunk as [|b bs];
    destruct (ev_type (r_event r));
    try destruct (ev_name (r_event r) =? "ctrl+c")%string;
    try destruct (r_write_ok r);
    try destruct (utf8_valid (b :: bs)); try discriminate; reflexivity.
Qed.

(** ** Release of the pty *)

(** X1.  In every session in which the child is spawned, whichever way the
    loop is left (the child's exit, the interrupt key, a failed read, or an
    exception such as a failed write or an undecodable chunk), the pty is
    released exactly once, and the release is the last call the function
    makes.  On the native path the controller descriptor is the
    non-negative descriptor of [os.openpty()], distinct from the
    follower. *)
Theorem pty_released_once_and_last cmd ert w m sl :
  starts w m sl ->
  (os_name w = Unix -> 0 <= m /\ m <> sl) ->
  releases m (calls (snd (run cmd ert w))) = 1%nat /\
  exists c, last (calls (snd (run cmd ert w))) = Some c /\
            is_release m c = true.
Proof.
  intros Hst Hm. split; [apply (cleanup_once_after_spawn _ _ _ _ sl Hst Hm)|].
  rewrite (calls_of_started cmd ert w m sl Hst). unfold cleanup_calls.
  destruct (os_name w) eqn:Hos.
  - destruct (Hm eq_refl) as [Hge _].
    destruct (Z.geb_spec m 0) as [_|Hlt]; [|lia].
    exists (c_close m). rewrite !app_assoc, last_snoc.
    split; [reflexivity|]. cbn. apply Z.eqb_refl.
  - exists c_pty_close. rewrite !app_assoc, last_snoc. split; reflexivity.
Qed.

Lemma pty_released_once_and_last_witness :
  releases 3
    (calls (snd (run ["cat"] 30 (native [typed_a; cut_character] 0)))) = 1%nat /\
  exists c,
    last (calls (snd (run ["cat"] 30 (native [typed_a; cut_character] 0)))) =
    Some c /\ is_release 3 c = true.
Proof.
  apply (pty_released_once_and_last
           ["cat"] 30 (native [typed_a; cut_character] 0) 3 4).
  - apply native_starts.
  - intros _. split; [lia|discriminate].
Defined.

(** X4.  When the release itself raises (closing the controller descriptor,
    or the emulated pty's close operation), the function raises [OSError]
    and returns nothing, whichever way the loop was left and whatever had
    been captured. *)
Theorem failed_release_raises cmd ert w m sl :
  starts w m sl ->
  cleanup_ok w m = false ->
  fst (run cmd ert w) = Raise OSError /\
  output (snd (run cmd ert w)) = chunks_read (calls (snd (run cmd ert w))).
Proof.
  intros Hst Hc. rewrite (run_eq cmd ert w m sl Hst).
  cbn [fst snd output calls]. unfold result_of, loop_raises, returncode_after. rewrite Hc.
  split; [reflexivity|]. apply eq_sym, chunks_read_run.
Qed.

Lemma failed_release_raises_witness :
  fst (run ["echo"; "hi"] 30 (close_fails [typed_a] 0)) = Raise OSError /\
  output (snd (run ["echo"; "hi"] 30 (close_fails [typed_a] 0))) =
  chunks_read (calls (snd (run ["echo"; "hi"] 30 (close_fails [typed_a] 0)))).
Proof.
  apply (failed_release_raises ["echo"; "hi"] 30 (close_fails [typed_a] 0) 3 4).
  - repeat split; eauto.
  - reflexivity.
Defined.

(** ** Ways out of the loop *)

(** X2.  When a read on the controller descriptor raises [OSError], the
    function returns what was captured before, with the sentinel -1: the
    child's status is not collected on this route, whatever it is and
    whatever the script held next. *)
Theorem failed_read_returns_sentinel cmd ert w m sl pre r post :
  starts w m sl ->
  cleanup_ok w m = true ->
  rounds w = pre ++ r :: post ->
  Forall falls_through pre ->
  turn r = T_read_error ->
  fst (run cmd ert w) = Next (loop_out pre, -1) /\
  output (snd (run cmd ert w)) = loop_out pre /\
  returncode (snd (run cmd ert w)) = None.
Proof.
  intros Hst Hc Hrs Hpre Hr.
  assert (route_of (rounds w) = ReadError) as Hroute
    by (rewrite Hrs, route_of_stop by exact Hpre; rewrite Hr; reflexivity).
  assert (loop_out (rounds w) = loop_out pre) as Hout.
  { rewrite Hrs, loop_out_app by exact Hpre. cbn [loop_out].
    unfold turn_out. rewrite Hr, (turn_read_error r Hr), !app_nil_r.
    reflexivity. }
  rewrite (run_eq cmd ert w m sl Hst). cbn [fst snd output returncode].
  unfold result_of, loop_raises, returncode_after. rewrite Hc, Hroute, Hout. repeat split.
Qed.

Lemma failed_read_returns_sentinel_witness :
  fst (run ["cat"] 30 (native [typed_a; read_fails; typed_a] 7)) =
  Next (loop_out [typed_a], -1) /\
  output (snd (run ["cat"] 30 (native [typed_a; read_fails; typed_a] 7))) =
  loop_out [typed_a] /\
  returncode (snd (run ["cat"] 30 (native [typed_a; read_fails; typed_a] 7))) =
  None.
Proof.
  apply (failed_read_returns_sentinel
           ["cat"] 30 (native [typed_a; read_fails; typed_a] 7) 3 4
           [typed_a] read_fails [typed_a]).
  - apply native_starts.
  - reflexivity.
  - reflexivity.
  - repeat constructor.
  - reflexivity.
Defined.

(** X3.  When a chunk that was read is not well-formed UTF-8, the chunk is
    appended to the output buffer, [chunk.decode()] raises
    [UnicodeDecodeError], which the [except OSError] clause does not catch:
    after the clean-up the exception reaches the caller and no result is
    returned. *)
Theorem undecodable_chunk_raises cmd ert w m sl pre r post chunk :
  starts w m sl ->
  cleanup_ok w m = true ->
  rounds w = pre ++ r :: post ->
  Forall falls_through pre ->
  turn r = T_decode_error ->
  r_read r = ReadOk chunk ->
  fst (run cmd ert w) = Raise UnicodeDecodeError /\
  output (snd (run cmd ert w)) = loop_out pre ++ chunk /\
  utf8_valid chunk = false.
Proof.
  intros Hst Hc Hrs Hpre Hr Hrd.
  assert (route_of (rounds w) = Fault UnicodeDecodeError) as Hroute
    by (rewrite Hrs, route_of_stop by exact Hpre; rewrite Hr; reflexivity).
  rewrite (run_eq cmd ert w m sl Hst). cbn [fst snd output].
  unfold result_of, loop_raises, returncode_after. rewrite Hc, Hroute. split; [reflexivity|].
  rewrite Hrs, loop_out_app by exact Hpre. cbn [loop_out].
  unfold turn_out. rewrite Hr, Hrd, app_nil_r. split; [reflexivity|].
  exact (turn_decode_error r chunk Hr Hrd).
Qed.

Lemma undecodable_chunk_raises_witness :
  fst (run ["cat"] 30 (native [typed_a; cut_character] 0)) =
  Raise UnicodeDecodeError /\
  output (snd (run ["cat"] 30 (native [typed_a; cut_character] 0))) =
  loop_out [typed_a] ++ ["h"; "195"]%byte /\
  utf8_valid ["h"; "195"]%byte = false.
Proof.
  apply (undecodable_chunk_raises
           ["cat"] 30 (native [typed_a; cut_character] 0) 3 4
           [typed_a] cut_character []).
  - apply native_starts.
  - reflexivity.
  - reflexivity.
  - repeat constructor.
  - reflexivity.
  - reflexivity.
Defined.

Lemma loop_runs_until_exit_witness :
  calls (snd (run ["cat"] 30 (native [typed_a; released_a; silent] 0))) =
    setup_calls ["cat"] (native [] 0) 4 ++
    turns_calls 3 [typed_a; released_a; silent] ++
    [c_poll (Some 0)] ++ [c_close 3].
Proof.
  apply (loop_runs_until_exit
           ["cat"] 30 (native [typed_a; released_a; silent] 0) 3 4).
  - apply native_starts.
  - repeat constructor.
Defined.

(** ** What goes to the descriptor and to the display *)

Lemma written_typed_turn m r :
  written (turn_calls m r) = typed m (turn_calls m r).
Proof.
  destruct r as [[ty name] wok rd]. unfold turn_calls, read_calls.
  cbn [r_event r_write_ok r_read ev_type ev_name].
  unfold written, typed. cbn [flat_map ev_type ev_name].
  destruct ty; [destruct (name =? "ctrl+c")%string; [reflexivity|];
                destruct wok; [|reflexivity] |];
    destruct rd as [[|b bs]|]; try reflexivity;
    destruct (decode (b :: bs)); reflexivity.
Qed.

Lemma written_typed_loop m status rs :
  written (loop_calls m rs status) = typed m (loop_calls m rs status).
Proof.
  induction rs as [|r rs IH]; [reflexivity|].
  cbn [loop_calls]. unfold written, typed in *. cbn [flat_map app].
  rewrite !flat_map_app.
  pose proof (written_typed_turn m r) as E. unfold written, typed in E.
  rewrite E. destruct (turn r); rewrite ?IH; reflexivity.
Qed.

(** X9.  Keys are forwarded verbatim and nothing else is ever written: the
    writes of a session, in order, are exactly the names of the keys that
    went down (the interrupt combination apart), each sent to the
    controller descriptor; key releases, the interrupt key and the child's
    output cause no write. *)
Theorem keys_forwarded_verbatim cmd ert w m sl :
  starts w m sl ->
  written (calls (snd (run cmd ert w))) =
  typed m (calls (snd (run cmd ert w))).
Proof.
  intros Hst. rewrite (calls_of_started cmd ert w m sl Hst).
  unfold written, typed. rewrite !flat_map_app.
  pose proof (written_typed_loop m (exit_status w) (rounds w)) as E.
  unfold written, typed in E. rewrite E.
  rewrite !flat_map_delivery by reflexivity.
  f_equal; [|f_equal].
  - unfold setup_calls.
    destruct (os_name w), (terminal_size w) as [[cols rows]|]; reflexivity.
  - unfold cleanup_calls. destruct (os_name w), (m >=? 0)%Z; reflexivity.
Qed.

Lemma keys_forwarded_verbatim_witness :
  written
    (calls (snd (run ["cat"] 30
                   (native [typed_a; released_a; pressed_ctrl_c] 0)))) =
  typed 3
    (calls (snd (run ["cat"] 30
                   (native [typed_a; released_a; pressed_ctrl_c] 0)))).
Proof.
  apply (keys_forwarded_verbatim
           ["cat"] 30 (native [typed_a; released_a; pressed_ctrl_c] 0) 3 4).
  apply native_starts.
Defined.

Lemma on_controller_loop m status rs :
  Forall (on_controller m) (loop_calls m rs status).
Proof.
  induction rs as [|r rs IH]; cbn [loop_calls]; [repeat constructor|].
  constructor; [exact I|]. apply Forall_app. split.
  - unfold turn_calls, read_calls. constructor; [exact I|].
    destruct (ev_type (r_event r)), (ev_name (r_event r) =? "ctrl+c")%string,
      (r_write_ok r), (r_read r) as [[|b bs]|];
      try destruct (decode (b :: bs)); repeat constructor.
  - destruct (turn r); (exact IH || constructor).
Qed.

(** X10.  The session reads and writes no descriptor but the controller
    descriptor of its pty, and every read asks for 1024 bytes. *)
Theorem io_on_controller_only cmd ert w m sl :
  starts w m sl ->
  Forall (on_controller m) (calls (snd (run cmd ert w))).
Proof.
  intros Hst. rewrite (calls_of_started cmd ert w m sl Hst).
  apply Forall_app. split;
    [|apply Forall_app; split; [|apply Forall_app; split]].
  - unfold setup_calls.
    destruct (os_name w), (terminal_size w) as [[cols rows]|];
      repeat constructor.
  - apply on_controller_loop.
  - unfold delivery, interrupt_delivery.
    destruct (route_of (rounds w)), (os_name w), (signal_poll w);
      repeat constructor.
  - unfold cleanup_calls. destruct (os_name w), (m >=? 0)%Z;
      repeat constructor.
Qed.

Lemma io_on_controller_only_witness :
  Forall (on_controller 3)
    (calls (snd (run ["cat"] 30 (native [typed_a; released_a] 0)))).
Proof.
  apply (io_on_controller_only
           ["cat"] 30 (native [typed_a; released_a] 0) 3 4).
  apply native_starts.
Defined.

Lemma printed_turn fd r :
  turn r <> T_decode_error -> printed (turn_calls fd r) = turn_out r.
Proof.
  destruct r as [[ty name] wok rd].
  unfold turn, turn_out, turn, turn_calls, read_calls, read_end, decode.
  cbn [r_event r_write_ok r_read ev_type ev_name].
  unfold printed. cbn [flat_map].
  destruct ty; [destruct (name =? "ctrl+c")%string; [reflexivity|];
                destruct wok; [|reflexivity] |];
    (destruct rd as [[|b bs]|]; [reflexivity| |reflexivity]);
    (destruct (utf8_valid (b :: bs)); [|congruence]); intros _;
    cbn [flat_map app]; unfold encode;
    rewrite list_byte_of_string_of_list_byte, app_nil_r; reflexivity.
Qed.

Lemma printed_loop fd status rs :
  route_of rs <> Fault UnicodeDecodeError ->
  printed (loop_calls fd rs status) = loop_out rs.
Proof.
  induction rs as [|r rs IH]; [reflexivity|].
  cbn [route_of loop_calls loop_out]. intros Hr.
  unfold printed in *. cbn [flat_map app]. rewrite flat_map_app.
  pose proof (printed_turn fd r) as E. unfold printed in E.
  rewrite E by (intros Ht; rewrite Ht in Hr; congruence).
  destruct (turn r); rewrite ?(IH Hr); reflexivity.
Qed.

(** X5.  The live display shows exactly what is captured: unless the
    session stops on a chunk that does not decode, the texts printed, in
    order and encoded again, are byte for byte the output buffer. *)
Theorem display_matches_capture cmd ert w m sl :
  starts w m sl ->
  route_of (rounds w) <> Fault UnicodeDecodeError ->
  printed (calls (snd (run cmd ert w))) = output (snd (run cmd ert w)).
Proof.
  intros Hst Hr. rewrite (run_eq cmd ert w m sl Hst). cbn [snd calls output].
  unfold printed. rewrite !flat_map_app.
  pose proof (printed_loop m (exit_status w) (rounds w) Hr) as E.
  unfold printed in E. rewrite E.
  rewrite flat_map_delivery by reflexivity. cbn [app].
  replace (flat_map _ (setup_calls cmd w sl)) with (@nil byte).
  - replace (flat_map _ (cleanup_calls w m)) with (@nil byte);
      [apply app_nil_r|].
    unfold cleanup_calls. destruct (os_name w), (m >=? 0)%Z; reflexivity.
  - unfold setup_calls.
    destruct (os_name w), (terminal_size w) as [[cols rows]|]; reflexivity.
Qed.

Lemma display_matches_capture_witness :
  printed
    (calls (snd (run ["cat"] 30 (native [typed_a; released_a; read_fails] 0))))
  = output (snd (run ["cat"] 30 (native [typed_a; released_a; read_fails] 0))).
Proof.
  apply (display_matches_capture
           ["cat"] 30 (native [typed_a; released_a; read_fails] 0) 3 4).
  - apply native_starts.
  - discriminate.
Defined.





(** ** Allocation and spawn *)

Lemma spawns_loop_call cs :
  Forall (fun c => is_loop_call c = true) cs -> spawns cs = [].
Proof.
  induction 1 as [|c cs Hc _ IH]; [reflexivity|].
  unfold spawns in *. cbn [flat_map]. rewrite IH.
  destruct c; try discriminate; reflexivity.
Qed.

Lemma spawns_run cmd ert w m sl :
  terminal_size w <> None -> pty_pair w = Some (m, sl) ->
  spawns (calls (snd (run cmd ert w))) = [spawn_args cmd w sl].
Proof.
  intros Hsz Hpty.
  destruct (terminal_size w) as [[cols rows]|] eqn:Esz; [clear Hsz|congruence].
  assert (forall Hst : starts w m sl,
            spawns (calls (snd (run cmd ert w))) = [spawn_args cmd w sl]) as K.
  { intros Hst. rewrite (calls_of_started cmd ert w m sl Hst).
    unfold spawns. rewrite !flat_map_app.
    fold (spawns (loop_calls m (rounds w) (exit_status w))).
    rewrite (spawns_loop_call _ (loop_calls_kind _ _ _)).
    rewrite flat_map_delivery by reflexivity.
    unfold setup_calls, cleanup_calls. rewrite Esz.
    destruct (os_name w), (m >=? 0)%Z; reflexivity. }
  destruct (spawn_ok w) eqn:Hsp.
  - destruct (os_name w) eqn:Hos.
    + destruct (os_close_ok w sl) eqn:Hsl.
      * apply K. repeat split; [eexists; exact Esz|exact Hpty|exact Hsp
                                |intros _; exact Hsl].
      * prelude. rewrite Esz, Hpty, Hsp, Hos. step. rewrite Hsl. reflexivity.
    + apply K. repeat split; [eexists; exact Esz|exact Hpty|exact Hsp
                              |intros; congruence].
  - prelude. rewrite Esz, Hpty, Hsp. destruct (os_name w); reflexivity.
Qed.

(** X7.  Once the pty is allocated, exactly one child is spawned, whether
    the spawn then succeeds or not: with the caller's command unchanged,
    standard output and standard error on the follower descriptor, no
    buffering and [close_fds].  On the native path standard input is the
    follower as well and no shell is used; on the emulated path standard
    input is a pipe and the command goes through the shell. *)
Theorem one_child_on_the_follower cmd ert w m sl :
  terminal_size w <> None ->
  pty_pair w = Some (m, sl) ->
  exists args,
    spawns (calls (snd (run cmd ert w))) = [args] /\
    p_cmd args = cmd /\
    p_stdout args = Fd sl /\ p_stderr args = Fd sl /\
    p_bufsize args = 0 /\ p_close_fds args = true /\
    p_stdin args = match os_name w with Unix => Fd sl | Windows => PIPE end /\
    p_shell args = match os_name w with Unix => false | Windows => true end.
Proof.
  intros Hsz Hpty. exists (spawn_args cmd w sl).
  split; [apply (spawns_run _ _ _ m); assumption|].
  unfold spawn_args. destruct (os_name w); repeat split.
Qed.

Lemma one_child_on_the_follower_witness :
  exists args,
    spawns (calls (snd (run ["not-a-real-command-xyz"] 30 no_such_command))) =
    [args] /\
    p_cmd args = ["not-a-real-command-xyz"] /\
    p_stdout args = Fd 4 /\ p_stderr args = Fd 4 /\
    p_bufsize args = 0 /\ p_close_fds args = true /\
    p_stdin args = Fd 4 /\ p_shell args = false.
Proof.
  apply (one_child_on_the_follower
           ["not-a-real-command-xyz"] 30 no_such_command 3 4).
  - discriminate.
  - reflexivity.
Defined.

(** X6.  When the terminal size cannot be read or the pty cannot be
    allocated, the function raises [OSError] before any child exists: it
    spawns nothing, closes nothing and captures nothing; without a terminal
    size it does not even ask for a pty. *)
Theorem provisioning_failure_spawns_nothing cmd ert w :
  terminal_size w = None \/ pty_pair w = None ->
  fst (run cmd ert w) = Raise OSError /\
  spawns (calls (snd (run cmd ert w))) = [] /\
  (forall fd, releases fd (calls (snd (run cmd ert w))) = 0%nat) /\
  output (snd (run cmd ert w)) = [] /\
  (terminal_size w = None ->
   calls (snd (run cmd ert w)) = [c_get_terminal_size]).
Proof.
  intros H. prelude.
  destruct (terminal_size w) as [[cols rows]|] eqn:Hsz.
  - destruct H as [H|H]; [discriminate|]. rewrite H.
    destruct (os_name w); step; repeat split; intros; discriminate.
  - step. repeat split.
Qed.

Lemma provisioning_failure_spawns_nothing_witness :
  fst (run ["ls"] 30 no_pty) = Raise OSError /\
  spawns (calls (snd (run ["ls"] 30 no_pty))) = [] /\
  (forall fd, releases fd (calls (snd (run ["ls"] 30 no_pty))) = 0%nat) /\
  output (snd (run ["ls"] 30 no_pty)) = [] /\
  (terminal_size no_pty = None ->
   calls (snd (run ["ls"] 30 no_pty)) = [c_get_terminal_size]).
Proof.
  apply (provisioning_failure_spawns_nothing ["ls"] 30 no_pty).
  right. reflexivity.
Defined.

(** X8.  In a native session the parent closes its copy of the follower
    descriptor exactly once, right after the spawn and before the first
    poll, and never touches it again; in an emulated session [os.close] is
    not called at all. *)
Theorem follower_closed_after_spawn cmd ert w m sl :
  starts w m sl ->
  m <> sl ->
  match os_name w with
  | Unix =>
    exists rest,
      calls (snd (run cmd ert w)) =
        [c_get_terminal_size; c_openpty; c_Popen (spawn_args cmd w sl);
         c_close sl] ++ rest /\
      releases sl rest = 0%nat /\
      releases sl (calls (snd (run cmd ert w))) = 1%nat
  | Windows => forall fd, ~ In (c_close fd) (calls (snd (run cmd ert w)))
  end.
Proof.
  intros Hst Hne. rewrite (calls_of_started cmd ert w m sl Hst).
  unfold setup_calls, cleanup_calls. destruct (os_name w) eqn:Hos.
  - eexists. split; [reflexivity|].
    assert (releases sl
              (loop_calls m (rounds w) (exit_status w) ++
               delivery w (rounds w) ++
               (if (m >=? 0)%Z then [c_close m] else [])) = 0%nat) as E.
    { rewrite !releases_app.
      rewrite (releases_loop_call sl _ (loop_calls_kind _ _ _)).
      rewrite (releases_loop_call sl _ (delivery_kind _ _)).
      destruct (m >=? 0)%Z; [|reflexivity]. cbn.
      destruct (Z.eqb_spec m sl); [contradiction|reflexivity]. }
    split; [exact E|].
    cbn [app releases is_release]. rewrite E, Z.eqb_refl. reflexivity.
  - destruct Hst as ([[cols rows] Hsz] & _). rewrite Hsz.
    intros fd Hin. rewrite !in_app_iff in Hin.
    destruct Hin as [Hin|[Hin|[Hin|Hin]]].
    + cbn in Hin.
      repeat (destruct Hin as [Hin|Hin]; try discriminate). destruct Hin.
    + pose proof (loop_calls_kind m (exit_status w) (rounds w)) as K.
      rewrite Forall_forall in K. apply list_elem_of_In, K in Hin.
      discriminate.
    + pose proof (delivery_kind w (rounds w)) as K.
      rewrite Forall_forall in K. apply list_elem_of_In, K in Hin.
      discriminate.
    + destruct Hin as [Hin|[]]. discriminate.
Qed.

Lemma follower_closed_after_spawn_witness :
  exists rest,
    calls (snd (run ["cat"] 30 (native [typed_a] 0))) =
      [c_get_terminal_size; c_openpty;
       c_Popen (spawn_args ["cat"] (native [typed_a] 0) 4); c_close 4] ++
      rest /\
    releases 4 rest = 0%nat /\
    releases 4 (calls (snd (run ["cat"] 30 (native [typed_a] 0)))) = 1%nat.
Proof.
  apply (follower_closed_after_spawn ["cat"] 30 (native [typed_a] 0) 3 4).
  - apply native_starts.
  - discriminate.
Defined.

(** ** Chunks and characters *)

Lemma utf8_valid_ascii bs :
  Forall (fun b => in_range 0 127 b = true) bs -> utf8_valid bs = true.
Proof.
  induction 1 as [|b bs Hb _ IH]; [reflexivity|].
  cbn [utf8_valid]. rewrite Hb. exact IH.
Qed.

Lemma lead_not_cont b :
  is_lead b = true -> cont b = false /\ in_range 0 127 b = false.
Proof. destruct b; intros H; try discriminate H; split; reflexivity. Qed.

Lemma utf8_valid_lead_alone b : is_lead b = true -> utf8_valid [b] = false.
Proof. destruct b; intros H; try discriminate H; reflexivity. Qed.

Lemma utf8_valid_cut b : is_lead b = true ->
  forall n bs, (length bs < n)%nat -> utf8_valid (bs ++ [b]) = false.
Proof.
  intros Hb. destruct (lead_not_cont b Hb) as [Hc _].
  induction n as [|n IH]; intros bs Hn; [lia|].
  destruct bs as [|b0 t0]; [exact (utf8_valid_lead_alone b Hb)|].
  cbn [length] in Hn. cbn [app utf8_valid].
  destruct (in_range 0 127 b0); [apply IH; lia|].
  destruct (in_range 194 223 b0).
  { destruct t0 as [|b1 t1]; cbn [app length] in *.
    - rewrite Hc. reflexivity.
    - rewrite IH by lia. apply andb_false_r. }
  destruct (in_range 224 239 b0).
  { destruct t0 as [|b1 [|b2 t2]]; cbn [app length] in *.
    - reflexivity.
    - rewrite Hc. rewrite andb_false_r. reflexivity.
    - rewrite IH by lia. apply andb_false_r. }
  destruct (in_range 240 244 b0); [|reflexivity].
  destruct t0 as [|b1 [|b2 [|b3 t3]]]; cbn [app length] in *.
  - reflexivity.
  - reflexivity.
  - rewrite Hc. rewrite andb_false_r. reflexivity.
  - rewrite IH by lia. apply andb_false_r.
Qed.

Lemma starts_dec w :
  (exists m sl, starts w m sl) \/ (forall m sl, ~ starts w m sl).
Proof.
  unfold starts.
  destruct (terminal_size w) as [sz|] eqn:Hsz;
    [|right; intros m sl ([x Hx] & _); discriminate].
  destruct (pty_pair w) as [[m sl]|] eqn:Hpty;
    [|right; intros m sl (_ & H & _); discriminate].
  destruct (spawn_ok w) eqn:Hsp;
    [|right; intros m' sl' (_ & _ & H & _); discriminate].
  destruct (os_name w) eqn:Hos.
  - destruct (os_close_ok w sl) eqn:Hsl.
    + left. exists m, sl. repeat split; eauto.
    + right. intros m' sl' (_ & H & _ & K). injection H as <- <-.
      rewrite (K eq_refl) in Hsl. discriminate.
  - left. exists m, sl. repeat split; eauto. discriminate.
Qed.

Lemma ascii_turn r : ascii_only r -> turn r <> T_decode_error.
Proof.
  unfold ascii_only, turn, read_end.
  destruct (r_read r) as [[|b bs]|]; intros H;
    try rewrite (utf8_valid_ascii _ H);
    destruct (ev_type (r_event r));
    try destruct (ev_name (r_event r) =? "ctrl+c")%string;
    try destruct (r_write_ok r); discriminate.
Qed.

Lemma ascii_route rs :
  Forall ascii_only rs -> route_of rs <> Fault UnicodeDecodeError.
Proof.
  induction 1 as [|r rs Hr _ IH]; [discriminate|].
  cbn [route_of]. pose proof (ascii_turn r Hr) as Ht.
  destruct (turn r); try discriminate; [exact IH|congruence].
Qed.

(** X12.  A session in which every chunk read is plain 7-bit text never
    ends in [UnicodeDecodeError], whatever else happens in it. *)
Theorem ascii_output_always_decodes cmd ert w :
  Forall ascii_only (rounds w) ->
  fst (run cmd ert w) <> Raise UnicodeDecodeError.
Proof.
  intros Hall. destruct (starts_dec w) as [(m & sl & Hst)|Hno].
  - rewrite (run_eq cmd ert w m sl Hst). cbn [fst].
    unfold result_of, loop_raises, interrupt_raises.
    pose proof (ascii_route _ Hall) as Hr.
    destruct (cleanup_ok w m); [|discriminate].
    destruct (route_of (rounds w)) as [| | |e]; try discriminate.
    + destruct (os_name w); discriminate.
    + destruct e; try discriminate. congruence.
  - destruct (run_unstarted cmd ert w Hno) as [-> _]. discriminate.
Qed.

Lemma ascii_output_always_decodes_witness :
  fst (run ["cat"] 30 (native [typed_a; released_a; write_fails] 0)) <>
  Raise UnicodeDecodeError.
Proof.
  apply (ascii_output_always_decodes
           ["cat"] 30 (native [typed_a; released_a; write_fails] 0)).
  repeat constructor.
Defined.

(** X13.  A chunk that stops after the first byte of a multi-byte
    character (as a read of 1024 bytes may cut it) is appended to the
    output buffer and then makes the turn raise [UnicodeDecodeError],
    provided the turn gets to the read: the event is a key release, or a
    key press other than the interrupt key whose write succeeded. *)
Theorem cut_character_raises w fd r s bs b :
  r_read r = ReadOk (bs ++ [b]) ->
  is_lead b = true ->
  ev_type (r_event r) = KEY_UP \/
  ((ev_name (r_event r) =? "ctrl+c")%string = false /\ r_write_ok r = true) ->
  fst (body w fd r s) = Raise UnicodeDecodeError /\
  output (snd (body w fd r s)) = output s ++ bs ++ [b].
Proof.
  intros Hrd Hb Hev.
  pose proof (utf8_valid_cut b Hb (S (length bs)) bs (Nat.lt_succ_diag_r _))
    as Hcut.
  assert (turn r = T_decode_error) as Ht.
  { unfold turn, read_end. rewrite Hrd.
    destruct bs as [|b0 t]; cbn [app] in *; rewrite Hcut;
      destruct (ev_type (r_event r)); try reflexivity;
      destruct Hev as [Hev|[-> ->]]; try discriminate; reflexivity. }
  rewrite body_eq by congruence.
  cbn [fst snd output]. rewrite Ht. split; [reflexivity|].
  unfold turn_out. rewrite Ht, Hrd. reflexivity.
Qed.

Lemma cut_character_raises_witness :
  fst (body (native [] 0) 3 cut_character fresh) = Raise UnicodeDecodeError /\
  output (snd (body (native [] 0) 3 cut_character fresh)) =
  [] ++ ["h"%byte] ++ ["195"%byte].
Proof.
  apply (cut_character_raises
           (native [] 0) 3 cut_character fresh ["h"%byte] "195"%byte).
  - reflexivity.
  - reflexivity.
  - left. reflexivity.
Defined.

(** ** The entry point *)

Lemma main_eq prog arg args w :
  main (prog :: arg :: args) w fresh =
  (match fst (run (arg :: args) 30 w) with
   | Next result => Next (snd result)
   | Break => Break
   | Raise e => Raise e
   end,
   snd (run (arg :: args) 30 w)).
Proof.
  unfold main, run, bind, ret. cbn [length Nat.ltb Nat.leb List.tl].
  destruct (run_interactive_command (arg :: args) 30 w fresh)
    as [[result| |e] s']; reflexivity.
Qed.

(** X14.  Started without a command (no argument after the program name,
    or an empty [sys.argv]), the program prints the usage line and exits
    with status 1; it asks for no terminal size, allocates no pty and
    spawns nothing. *)
Theorem main_without_command argv w :
  (length argv < 2)%nat ->
  main argv w fresh =
  (Next 1,
   {| output := []; returncode := None;
      calls := [c_print (usage ++ String (Ascii.ascii_of_nat 10) EmptyString)%string]
   |}).
Proof.
  intros H. unfold main. destruct (Nat.ltb_spec (length argv) 2); [|lia].
  reflexivity.
Qed.

Lemma main_without_command_witness :
  main ["interactive.py"] no_such_command fresh =
  (Next 1,
   {| output := []; returncode := None;
      calls := [c_print (usage ++ String (Ascii.ascii_of_nat 10) EmptyString)%string]
   |}).
Proof.
  apply (main_without_command ["interactive.py"] no_such_command).
  cbn. lia.
Defined.

(** X15.  Started with a command, the program runs the words after the
    program name with the runtime estimate 30 and makes no call of its
    own.  When the session returns, it exits with the child's exit status
    if the operating system reported it (to the poll that ended the loop,
    or to the poll inside [proc.send_signal] on the interrupt route), and
    with -1 otherwise: after a failed read, or after the interrupt key with
    the child still alive.  The captured output is dropped. *)
Theorem main_exits_with_return_code prog arg args w m sl :
  starts w m sl ->
  cleanup_ok w m = true ->
  loop_raises w (rounds w) = None ->
  fst (main (prog :: arg :: args) w fresh) =
    Next (match route_of (rounds w) with
          | ChildExited => exit_status w
          | Interrupt =>
            match signal_poll w with Some status => status | None => -1 end
          | _ => -1
          end) /\
  snd (main (prog :: arg :: args) w fresh) = snd (run (arg :: args) 30 w).
Proof.
  intros Hst Hc Hr. rewrite main_eq. cbn [fst snd]. split; [|reflexivity].
  rewrite (run_eq (arg :: args) 30 w m sl Hst). cbn [fst].
  unfold result_of. rewrite Hc, Hr. cbn [snd].
  unfold loop_raises, interrupt_raises in Hr.
  unfold returncode_after, interrupt_returncode.
  destruct (route_of (rounds w)) as [| | |e]; try discriminate;
    try reflexivity.
  destruct (os_name w); [|discriminate].
  destruct (signal_poll w); reflexivity.
Qed.

Lemma main_exits_with_return_code_witness :
  fst (main ["interactive.py"; "true"]
         (native_ended [silent; pressed_ctrl_c] 0) fresh) = Next 0 /\
  snd (main ["interactive.py"; "true"]
         (native_ended [silent; pressed_ctrl_c] 0) fresh) =
  snd (run ["true"] 30 (native_ended [silent; pressed_ctrl_c] 0)).
Proof.
  apply (main_exits_with_return_code
           "interactive.py" "true" []
           (native_ended [silent; pressed_ctrl_c] 0) 3 4).
  - repeat split; eauto.
  - reflexivity.
  - reflexivity.
Defined.

(** X17.  The entry point catches nothing: when the pty cannot be
    allocated, the command cannot be spawned, a write fails or a chunk does
    not decode, the exception of the run leaves the program as it is, and
    the program has printed no message of its own. *)
Theorem main_lets_exceptions_escape prog arg args w e :
  fst (run (arg :: args) 30 w) = Raise e ->
  fst (main (prog :: arg :: args) w fresh) = Raise e /\
  calls (snd (main (prog :: arg :: args) w fresh)) =
  calls (snd (run (arg :: args) 30 w)).
Proof.
  intros H. rewrite main_eq. cbn [fst snd]. rewrite H. split; reflexivity.
Qed.

Lemma main_lets_exceptions_escape_witness :
  fst (main ["interactive.py"; "not-a-real-command-xyz"] no_such_command fresh)
  = Raise OSError /\
  calls (snd (main ["interactive.py"; "not-a-real-command-xyz"]
                no_such_command fresh)) =
  calls (snd (run ["not-a-real-command-xyz"] 30 no_such_command)).
Proof.
  apply (main_lets_exceptions_escape
           "interactive.py" "not-a-real-command-xyz" [] no_such_command OSError).
  reflexivity.
Defined.

(** ** Polls, empty reads and the interrupt key *)

Lemma count_calls_app p cs1 cs2 :
  count_calls p (cs1 ++ cs2) = (count_calls p cs1 + count_calls p cs2)%nat.
Proof.
  induction cs1 as [|c cs1 IH]; [reflexivity|].
  cbn [app count_calls]. rewrite IH. lia.
Qed.

Lemma count_turn_calls fd r :
  count_calls is_key_event (turn_calls fd r) = 1%nat /\
  count_calls is_alive_poll (turn_calls fd r) = 0%nat /\
  count_calls is_exit_poll (turn_calls fd r) = 0%nat.
Proof.
  unfold turn_calls, read_calls.
  destruct (ev_type (r_event r)), (ev_name (r_event r) =? "ctrl+c")%string,
    (r_write_ok r), (r_read r) as [[|b bs]|];
    try destruct (decode (b :: bs)); repeat split.
Qed.

Lemma count_loop_calls fd status rs :
  count_calls is_alive_poll (loop_calls fd rs status) =
  count_calls is_key_event (loop_calls fd rs status) /\
  (count_calls is_exit_poll (loop_calls fd rs status) <= 1)%nat.
Proof.
  induction rs as [|r rs [IH1 IH2]]; [split; cbn; lia|].
  cbn [loop_calls count_calls is_alive_poll is_key_event is_exit_poll].
  rewrite !count_calls_app.
  destruct (count_turn_calls fd r) as [-> [-> ->]].
  destruct (turn r); cbn [count_calls]; lia.
Qed.

(** X18.  The function never waits for a key without having just asked
    whether the child is alive: in a session, the key events read are as
    many as the polls that found the child alive, and at most one poll is
    given an exit status. *)
Theorem polled_before_every_key cmd ert w m sl :
  starts w m sl ->
  count_calls is_alive_poll (calls (snd (run cmd ert w))) =
  count_calls is_key_event (calls (snd (run cmd ert w))) /\
  (count_calls is_exit_poll (calls (snd (run cmd ert w))) <= 1)%nat.
Proof.
  intros Hst. rewrite (calls_of_started cmd ert w m sl Hst).
  rewrite !count_calls_app.
  destruct (count_loop_calls m (exit_status w) (rounds w)) as [E1 E2].
  assert (forall p, (p = is_alive_poll \/ p = is_key_event \/ p = is_exit_poll) ->
            count_calls p (setup_calls cmd w sl) = 0%nat /\
            count_calls p (delivery w (rounds w)) = 0%nat /\
            count_calls p (cleanup_calls w m) = 0%nat) as K.
  { intros p Hp. unfold setup_calls, cleanup_calls, delivery, interrupt_delivery.
    destruct (os_name w), (terminal_size w) as [[cols rows]|], (m >=? 0)%Z,
      (route_of (rounds w)), (signal_poll w);
      destruct Hp as [-> | [-> | ->]]; repeat split. }
  destruct (K is_alive_poll) as [-> [-> ->]]; [tauto|].
  destruct (K is_key_event) as [-> [-> ->]]; [tauto|].
  destruct (K is_exit_poll) as [-> [-> ->]]; [tauto|].
  lia.
Qed.

Lemma polled_before_every_key_witness :
  count_calls is_alive_poll
    (calls (snd (run ["cat"] 30 (native [typed_a; released_a] 0)))) =
  count_calls is_key_event
    (calls (snd (run ["cat"] 30 (native [typed_a; released_a] 0)))) /\
  (count_calls is_exit_poll
     (calls (snd (run ["cat"] 30 (native [typed_a; released_a] 0)))) <= 1)%nat.
Proof.
  apply (polled_before_every_key
           ["cat"] 30 (native [typed_a; released_a] 0) 3 4).
  apply native_starts.
Defined.

(** X19.  An empty read does not end the session: in a turn that gets to
    the read (a key release, or a key press other than the interrupt key
    whose write succeeded) and whose read returns no bytes, nothing is
    appended, nothing is printed, and the turn falls through to the next
    poll. *)
Theorem empty_read_continues w fd r s :
  r_read r = ReadOk [] ->
  ev_type (r_event r) = KEY_UP \/
  ((ev_name (r_event r) =? "ctrl+c")%string = false /\ r_write_ok r = true) ->
  fst (body w fd r s) = Next tt /\
  output (snd (body w fd r s)) = output s /\
  printed (calls (snd (body w fd r s))) = printed (calls s) /\
  last (calls (snd (body w fd r s))) = Some (c_read fd 1024 (ReadOk [])).
Proof.
  intros Hrd Hev.
  rewrite body_eq
    by (destruct Hev as [Hev|[Hev _]];
        [apply key_up_not_interrupt|apply other_key_not_interrupt]; exact Hev).
  cbn [fst snd output calls].
  unfold turn, turn_out, turn, turn_calls, read_calls, read_end.
  rewrite Hrd. unfold printed. rewrite flat_map_app.
  destruct (ev_type (r_event r)).
  - destruct Hev as [Hev|[-> ->]]; [discriminate|].
    cbn [flat_map app]. rewrite !app_nil_r.
    repeat split. rewrite last_app_cons. reflexivity.
  - cbn [flat_map app]. rewrite !app_nil_r.
    repeat split. rewrite last_app_cons. reflexivity.
Qed.

Lemma empty_read_continues_witness :
  fst (body (native [] 0) 3 silent fresh) = Next tt /\
  output (snd (body (native [] 0) 3 silent fresh)) = [] /\
  printed (calls (snd (body (native [] 0) 3 silent fresh))) = printed [] /\
  last (calls (snd (body (native [] 0) 3 silent fresh))) =
  Some (c_read 3 1024 (ReadOk [])).
Proof.
  apply (empty_read_continues (native [] 0) 3 silent fresh).
  - reflexivity.
  - right. split; reflexivity.
Defined.

(** X20.  The interrupt key skips the read of its turn: what was pending
    on the controller descriptor when the key went down is neither read
    nor returned, and the reads of the session are those of the earlier
    turns.  On the native path the session returns exactly what the
    earlier turns captured, with the exit code of the interrupt route (the
    status found by the poll inside [proc.send_signal], or -1 for a child
    still alive); on the emulated path [ValueError] is raised. *)
Theorem interrupt_drops_pending_output cmd ert w m sl pre r post :
  starts w m sl ->
  cleanup_ok w m = true ->
  rounds w = pre ++ r :: post ->
  Forall falls_through pre ->
  turn r = T_interrupt ->
  fst (run cmd ert w) =
    match os_name w with
    | Unix =>
      Next (loop_out pre,
            match signal_poll w with Some status => status | None => -1 end)
    | Windows => Raise ValueError
    end /\
  chunks_read (calls (snd (run cmd ert w))) = loop_out pre.
Proof.
  intros Hst Hc Hrs Hpre Hr.
  assert (route_of (rounds w) = Interrupt) as Hroute
    by (rewrite Hrs, route_of_stop by exact Hpre; rewrite Hr; reflexivity).
  assert (loop_out (rounds w) = loop_out pre) as Hout.
  { rewrite Hrs, loop_out_app by exact Hpre. cbn [loop_out].
    unfold turn_out. rewrite Hr, !app_nil_r. reflexivity. }
  rewrite (run_eq cmd ert w m sl Hst). cbn [fst snd calls].
  unfold result_of, loop_raises, returncode_after, interrupt_raises,
    interrupt_returncode.
  rewrite Hc, Hroute, chunks_read_run, Hout.
  destruct (os_name w); [|split; reflexivity].
  destruct (signal_poll w); split; reflexivity.
Qed.

Lemma interrupt_drops_pending_output_witness :
  fst (run ["cat"] 30
         (native [typed_a;
                  {| r_event := key KEY_DOWN "ctrl+c"; r_write_ok := true;
                     r_read := ReadOk (encode "lost") |}] 0)) =
  Next (loop_out [typed_a], -1) /\
  chunks_read
    (calls (snd (run ["cat"] 30
                   (native [typed_a;
                            {| r_event := key KEY_DOWN "ctrl+c";
                               r_write_ok := true;
                               r_read := ReadOk (encode "lost") |}] 0)))) =
  loop_out [typed_a].
Proof.
  apply (interrupt_drops_pending_output
           ["cat"] 30
           (native [typed_a;
                    {| r_event := key KEY_DOWN "ctrl+c"; r_write_ok := true;
                       r_read := ReadOk (encode "lost") |}] 0)
           3 4 [typed_a]
           {| r_event := key KEY_DOWN "ctrl+c"; r_write_ok := true;
              r_read := ReadOk (encode "lost") |} []).
  - apply native_starts.
  - reflexivity.
  - reflexivity.
  - repeat constructor.
  - reflexivity.
Defined.
